(** * Alias resolution of ld-find-code-refs: a shallow embedding of
      [coderefs/alias.go] and the properties of its resolution call.

    The Go code talks to the operating system (glob expansion, file reads,
    external commands) and to a few pure libraries (regexp, strcase, json).
    The operating system is an abstract state [World] threaded through every
    call together with a log of the requests that were issued; the libraries
    are uninterpreted pure functions.  Everything the file [alias.go] itself
    does -- the loops, the dispatch, the error returns, the panics -- is
    written out. *)

From Stdlib Require Import String Ascii List ZArith Lia.
From stdpp Require Import base option list gmap strings pretty.

Local Open Scope Z_scope.
Local Open Scope nat_scope.

(** ** Go values *)

(** A Go [error] is represented by its message. *)
Definition error := string.

(** A Go [[]byte]. *)
Definition bytes := list Byte.byte.

(** The two ways a call can end abnormally without returning: the run-time
    panics that [alias.go] can raise. *)
Inductive PanicCause :=
| NilDereference
| MustCompileFailed (expr : string) (cause : error).

(** How a Go function of result type [(A, error)] ends: [return v, nil],
    [return nil, err], or a panic that unwinds the caller. *)
Inductive Res (A : Type) :=
| Ok (v : A)
| Err (e : error)
| Panic (c : PanicCause).
Arguments Ok {A} v.
Arguments Err {A} e.
Arguments Panic {A} c.

(** The two components of a Go [(A, error)] return, when the call returns. *)
Definition returned_value {A} (r : Res A) : option A :=
  match r with Ok v => Some v | _ => None end.

Definition returned_error {A} (r : Res A) : option error :=
  match r with Err e => Some e | _ => None end.

Definition returns_normally {A} (r : Res A) : Prop :=
  match r with Panic _ => False | _ => True end.

(** ** options.Alias *)

(** The fields of [options.Alias] that [alias.go] reads.  [Command] and
    [Timeout] are pointers in Go: [None] is the nil pointer. *)
Record Alias := {
  Type_ : string;
  Name : string;
  Flags : gmap string (list string);
  Paths : list string;
  Patterns : list string;
  Command : option string;
  Timeout : option Z
}.

(** The branch of the [switch] in [generateAlias] that a canonical type
    takes; [KOther] is falling out of the switch. *)
Inductive RuleKind :=
| KLiteral | KCamelCase | KPascalCase | KSnakeCase | KUpperSnakeCase
| KKebabCase | KDotCase | KFilePattern | KCommand | KOther.

(** ** The outside world *)

(** What [exec.CommandContext] followed by [cmd.Stdin = ..], [cmd.Dir = ..]
    sets up.  [Deadline] is the number of seconds after which the context
    kills the process, [None] for [context.Background()]. *)
Record Cmd := {
  cmd_Name : string;
  cmd_Args : list string;
  cmd_Stdin : string;
  cmd_Dir : string;
  cmd_Deadline : option Z
}.

(** The requests [alias.go] makes to the operating system. *)
Inductive Event :=
| EvGlob (basepath pattern : string)
| EvFileExists (path : string)
| EvReadFile (path : string)
| EvOutput (c : Cmd).

(** The operating system: each request answers and moves the world on. *)
Record OS (World : Type) := {
  (* doublestar.Glob (os.DirFS basepath) pattern; [None] is a non-nil err *)
  doublestar_Glob : string -> string -> World -> option (list string) * World;
  (* validation.FileExists *)
  validation_FileExists : string -> World -> bool * World;
  (* ioutil.ReadFile *)
  ioutil_ReadFile : string -> World -> (bytes + error) * World;
  (* exec.Cmd.Output: start the process, feed stdin, wait, collect stdout *)
  cmd_Output : Cmd -> World -> (bytes + error) * World
}.
Arguments doublestar_Glob {World} _ _ _ _.
Arguments validation_FileExists {World} _ _ _.
Arguments ioutil_ReadFile {World} _ _ _.
Arguments cmd_Output {World} _ _ _.

(** The pure library functions and the constants of package [options]. *)
Record Lib := {
  Regexp : Type;
  regexp_Compile : string -> Regexp + error;
  FindAllStringSubmatch : Regexp -> string -> list (list string);
  strings_ReplaceAll : string -> string -> string -> string;
  strcase_ToLowerCamel : string -> string;
  strcase_ToCamel : string -> string;
  strcase_ToSnake : string -> string;
  strcase_ToScreamingSnake : string -> string;
  strcase_ToKebab : string -> string;
  strcase_ToDelimited : string -> ascii -> string;
  (* json.Unmarshal stdout &ret, for ret = []string{} *)
  json_Unmarshal : bytes -> list string + error;
  filepath_Join : string -> string -> string;
  (* options.AliasType.Canonical and the nine options.* constants *)
  Canonical : string -> string;
  Literal : string;
  CamelCase : string;
  PascalCase : string;
  SnakeCase : string;
  UpperSnakeCase : string;
  KebabCase : string;
  DotCase : string;
  FilePattern : string;
  Command_ : string
}.

(** ** helpers.Dedupe *)

(** Modelled from the spec: [helpers.Dedupe] (package [internal/helpers],
    not part of [alias.go]).  The spec describes it as the stable
    deduplication of a sequence: the first occurrence of every string is
    kept, in its position, later repeats are dropped. *)
Fixpoint Dedupe_from (seen : gset string) (s : list string) : list string :=
  match s with
  | [] => []
  | x :: rest =>
      if decide (x ∈ seen) then Dedupe_from seen rest
      else x :: Dedupe_from ({[x]} ∪ seen) rest
  end.

Definition Dedupe (s : list string) : list string := Dedupe_from ∅ s.

(** ** strings.Split *)

(** The pieces of [s] between consecutive separator bytes; always at least
    one piece, and two adjacent separators enclose an empty piece. *)
Fixpoint split_where (is_sep : ascii -> bool) (s : string) : list string :=
  match s with
  | EmptyString => [EmptyString]
  | String c rest =>
      if is_sep c then EmptyString :: split_where is_sep rest
      else match split_where is_sep rest with
           | [] => [String c EmptyString]
           | tok :: toks => String c tok :: toks
           end
  end.

(** [strings.Split s sep] for a separator [sep] of one byte. *)
Definition strings_Split (s : string) (sep : ascii) : list string :=
  split_where (fun c => Ascii.eqb c sep) s.

(** The white space of ASCII: tab, line feed, vertical tab, form feed,
    carriage return and space. *)
Definition is_whitespace (c : ascii) : bool :=
  let n := nat_of_ascii c in
  (n =? 9) || (n =? 10) || (n =? 11) || (n =? 12) || (n =? 13) || (n =? 32).

(** The argument vector as the specification words it: the command string
    split on white space. *)
Definition split_on_whitespace (s : string) : list string :=
  split_where is_whitespace s.

(** [c] occurs in [s]. *)
Fixpoint contains_byte (c : ascii) (s : string) : bool :=
  match s with
  | EmptyString => false
  | String c' rest => Ascii.eqb c' c || contains_byte c rest
  end.

(** [strings.Join elems sep]. *)
Fixpoint strings_Join (elems : list string) (sep : string) : string :=
  match elems with
  | [] => EmptyString
  | [e] => e
  | e :: rest => e +:+ sep +:+ strings_Join rest sep
  end.

(** [strconv.Itoa] on a slice index. *)
Definition strconv_Itoa (n : nat) : string := pretty n.

(** ** The monad of [alias.go]

    A computation starts in a world and ends with a result, the world it
    left behind and the requests it issued, oldest first. *)
Definition M (World A : Type) : Type := World -> Res A * World * list Event.

Definition ret {World A} (v : A) : M World A := fun w => (Ok v, w, []).

Definition fail {World A} (e : error) : M World A := fun w => (Err e, w, []).

Definition panic {World A} (c : PanicCause) : M World A :=
  fun w => (Panic c, w, []).

Definition bind {World A B} (m : M World A) (k : A -> M World B) : M World B :=
  fun w =>
    match m w with
    | (Ok v, w1, l1) =>
        match k v w1 with (r, w2, l2) => (r, w2, l1 ++ l2) end
    | (Err e, w1, l1) => (Err e, w1, l1)
    | (Panic c, w1, l1) => (Panic c, w1, l1)
    end.

Notation "'let*' x ':=' m 'in' k" := (bind m (fun x => k))
  (at level 10, x name, m at level 100, k at level 200).

(** [if err != nil { return nil, fmt.Errorf(..) }]: the callee's error is
    replaced by the caller's. *)
Definition or_fail {World A} (m : M World A) (wrap : error -> error) : M World A :=
  fun w =>
    match m w with
    | (Err e, w1, l1) => (Err (wrap e), w1, l1)
    | other => other
    end.

(** Running the monadic body over a slice, collecting the results. *)
Fixpoint for_each {World A B} (f : A -> M World B) (l : list A) : M World (list B) :=
  match l with
  | [] => ret []
  | x :: rest =>
      let* y := f x in
      let* ys := for_each f rest in
      ret (y :: ys)
  end.

Section AliasGo.
Context {World : Type} (os : OS World) (lib : Lib).

Abbreviation M := (M World).

(** *** Requests to the operating system *)

Definition Glob (basepath pattern : string) : M (option (list string)) :=
  fun w => let '(r, w') := doublestar_Glob os basepath pattern w in
           (Ok r, w', [EvGlob basepath pattern]).

Definition FileExists (path : string) : M bool :=
  fun w => let '(b, w') := validation_FileExists os path w in
           (Ok b, w', [EvFileExists path]).

Definition ReadFile (path : string) : M bytes :=
  fun w => let '(r, w') := ioutil_ReadFile os path w in
           (match r with inl data => Ok data | inr e => Err e end,
            w', [EvReadFile path]).

Definition Output (c : Cmd) : M bytes :=
  fun w => let '(r, w') := cmd_Output os c w in
           (match r with inl out => Ok out | inr e => Err e end,
            w', [EvOutput c]).

(** [regexp.MustCompile]: panics where [regexp.Compile] returns an error. *)
Definition regexp_MustCompile (expr : string) : M (Regexp lib) :=
  match regexp_Compile lib expr with
  | inl re => ret re
  | inr e => panic (MustCompileFailed expr e)
  end.

(** *** globToAbsolutePaths (alias.go 45-59) *)
Definition globToAbsolutePaths (basepath pattern : string) : M (list string) :=
  let* r := Glob basepath pattern in
  match r with
  | None =>
      fail ("could not process path glob '"
            +:+ filepath_Join lib basepath pattern +:+ "'")
  | Some matches =>
      ret (map (fun match_ => strings_Join [basepath; match_] "/") matches)
  end.

(** *** generateAlias (alias.go 61-131) *)

(** The [switch a.Type.Canonical()]: cases are tried in source order. *)
Definition switch_kind (t : string) : RuleKind :=
  if String.eqb t (Literal lib) then KLiteral
  else if String.eqb t (CamelCase lib) then KCamelCase
  else if String.eqb t (PascalCase lib) then KPascalCase
  else if String.eqb t (SnakeCase lib) then KSnakeCase
  else if String.eqb t (UpperSnakeCase lib) then KUpperSnakeCase
  else if String.eqb t (KebabCase lib) then KKebabCase
  else if String.eqb t (DotCase lib) then KDotCase
  else if String.eqb t (FilePattern lib) then KFilePattern
  else if String.eqb t (Command_ lib) then KCommand
  else KOther.

(** Lines 86-91: the inner loop over one glob's matches. *)
Definition appendMatches (allFileContents : gmap string bytes)
    (fileContents : bytes) (matches : list string) : bytes :=
  fold_left
    (fun fileContents match_ =>
       let pathFileContents := default [] (allFileContents !! match_) in
       if 0 <? length pathFileContents
       then fileContents ++ pathFileContents
       else fileContents)
    matches fileContents.

(** Lines 81-92: the loop over [a.Paths]. *)
Fixpoint concatFileContents (dir : string)
    (allFileContents : gmap string bytes) (paths : list string)
    (fileContents : bytes) : M bytes :=
  match paths with
  | [] => ret fileContents
  | path :: rest =>
      let* matches := or_fail (globToAbsolutePaths dir path)
                   (fun _ => "could not process path glob '"
                             +:+ filepath_Join lib dir path +:+ "'") in
      concatFileContents dir allFileContents rest
        (appendMatches allFileContents fileContents matches)
  end.

(** Lines 97-101: the loop over the matches of one pattern. *)
Definition appendSubmatches (ret : list string)
    (results : list (list string)) : list string :=
  fold_left
    (fun ret res => if 1 <? length res then ret ++ drop 1 res else ret)
    results ret.

(** Lines 94-102: the loop over [a.Patterns]. *)
Fixpoint matchPatterns (flag : string) (fileContents : bytes)
    (patterns : list string) (ret_ : list string) : M (list string) :=
  match patterns with
  | [] => ret ret_
  | p :: rest =>
      let* pattern :=
        regexp_MustCompile (strings_ReplaceAll lib p "FLAG_KEY" flag) in
      let results :=
        FindAllStringSubmatch lib pattern (string_of_list_byte fileContents) in
      matchPatterns flag fileContents rest (appendSubmatches ret_ results)
  end.

(** Lines 104-109: the context of a command rule. *)
Definition commandDeadline (a : Alias) : option Z :=
  match Timeout a with
  | Some t => if (0 <? t)%Z then Some t else None
  | None => None
  end.

(** Lines 104-127: the command rule. *)
Definition runCommand (a : Alias) (flag dir : string) : M (list string) :=
  let ctx := commandDeadline a in
  match Command a with
  | None => panic NilDereference
  | Some command =>
      let tokens := strings_Split command " " in
      let name := hd EmptyString tokens in
      let args := if 1 <? length tokens then drop 1 tokens else [] in
      let cmd := {| cmd_Name := name; cmd_Args := args; cmd_Stdin := flag;
                    cmd_Dir := dir; cmd_Deadline := ctx |} in
      let* stdout := or_fail (Output cmd)
                  (fun err => "failed to execute alias command: " +:+ err) in
      match json_Unmarshal lib stdout with
      | inl ret_ => ret ret_
      | inr err =>
          fail ("could not unmarshal json output of alias command: " +:+ err)
      end
  end.

Definition generateAlias (a : Alias) (flag dir : string)
    (allFileContents : gmap string bytes) : M (list string) :=
  match switch_kind (Canonical lib (Type_ a)) with
  | KLiteral => ret (default [] (Flags a !! flag))
  | KCamelCase => ret [strcase_ToLowerCamel lib flag]
  | KPascalCase => ret [strcase_ToCamel lib flag]
  | KSnakeCase => ret [strcase_ToSnake lib flag]
  | KUpperSnakeCase => ret [strcase_ToScreamingSnake lib flag]
  | KKebabCase => ret [strcase_ToKebab lib flag]
  | KDotCase => ret [strcase_ToDelimited lib flag "."]
  | KFilePattern =>
      let* fileContents :=
        concatFileContents dir allFileContents (Paths a) [] in
      matchPatterns flag fileContents (Patterns a) []
  | KCommand => runCommand a flag dir
  | KOther => ret []
  end.

(** *** processFileContent (alias.go 134-175) *)

(** Lines 147-154: the loop expanding the globs of one rule. *)
Fixpoint expandGlobs (aliasId dir : string) (globs : list string)
    (paths : list string) : M (list string) :=
  match globs with
  | [] => ret paths
  | glob :: rest =>
      let* matches := or_fail (globToAbsolutePaths dir glob)
                   (fun _ => "filepattern '" +:+ aliasId
                             +:+ "': could not process path glob '"
                             +:+ filepath_Join lib dir glob +:+ "'") in
      expandGlobs aliasId dir rest (paths ++ matches)
  end.

(** Lines 158-171: the body of the loop over the paths of one rule. *)
Definition readPath (aliasId : string) (allFileContents : gmap string bytes)
    (path : string) : M (gmap string bytes) :=
  match allFileContents !! path with
  | Some _ => ret allFileContents
  | None =>
      let* found := FileExists path in
      if negb found
      then fail ("filepattern '" +:+ aliasId
                 +:+ "': could not find file at path '" +:+ path +:+ "'")
      else
        let* data := or_fail (ReadFile path)
                  (fun err => "filepattern '" +:+ aliasId
                              +:+ "': could not process file at path '"
                              +:+ path +:+ "': " +:+ err) in
        ret (<[path := data]> allFileContents)
  end.

(** Lines 157-172: the loop over the paths of one rule. *)
Fixpoint readPaths (aliasId : string) (paths : list string)
    (allFileContents : gmap string bytes) : M (gmap string bytes) :=
  match paths with
  | [] => ret allFileContents
  | path :: rest =>
      let* allFileContents' := readPath aliasId allFileContents path in
      readPaths aliasId rest allFileContents'
  end.

(** Lines 136-173: the loop over the rules, [idx] being the index of the
    first rule of [aliases]. *)
Fixpoint processRules (dir : string) (idx : nat) (aliases : list Alias)
    (allFileContents : gmap string bytes) : M (gmap string bytes) :=
  match aliases with
  | [] => ret allFileContents
  | a :: rest =>
      match switch_kind (Canonical lib (Type_ a)) with
      | KFilePattern =>
          let aliasId :=
            if String.eqb (Name a) "" then strconv_Itoa idx else Name a in
          let* paths := expandGlobs aliasId dir (Paths a) [] in
          let* allFileContents' :=
            readPaths aliasId (Dedupe paths) allFileContents in
          processRules dir (S idx) rest allFileContents'
      | _ => processRules dir (S idx) rest allFileContents
      end
  end.

Definition processFileContent (aliases : list Alias) (dir : string)
    : M (gmap string bytes) :=
  processRules dir 0 aliases ∅.

(** *** GenerateAliases (alias.go 25-43) *)

(** Lines 33-39: the loop over the rules for one flag. *)
Fixpoint dispatchRules (flag dir : string)
    (allFileContents : gmap string bytes) (aliases : list Alias)
    (ret_ : gmap string (list string)) : M (gmap string (list string)) :=
  match aliases with
  | [] => ret ret_
  | a :: rest =>
      let* flagAliases := generateAlias a flag dir allFileContents in
      dispatchRules flag dir allFileContents rest
        (<[flag := default [] (ret_ !! flag) ++ flagAliases]> ret_)
  end.

(** Lines 32-41: the loop over the flags. *)
Fixpoint resolveFlags (dir : string) (allFileContents : gmap string bytes)
    (aliases : list Alias) (flags : list string)
    (ret_ : gmap string (list string)) : M (gmap string (list string)) :=
  match flags with
  | [] => ret ret_
  | flag :: rest =>
      let* ret' := dispatchRules flag dir allFileContents aliases ret_ in
      resolveFlags dir allFileContents aliases rest
        (<[flag := Dedupe (default [] (ret' !! flag))]> ret')
  end.

Definition GenerateAliases (flags : list string) (aliases : list Alias)
    (dir : string) : M (gmap string (list string)) :=
  let* allFileContents := processFileContent aliases dir in
  resolveFlags dir allFileContents aliases flags ∅.

End AliasGo.

(** ** Failures *)

(** The two failures of a call: an error return and a panic. *)
Inductive Failure :=
| FErr (e : error)
| FPanic (c : PanicCause).

Definition failed {A} (f : Failure) : Res A :=
  match f with FErr e => Err e | FPanic c => Panic c end.

(** ** The result mapping, as the specification words it *)

(** The outputs of the rules for [flag], in dispatch order: [outs] holds,
    for every element of [flags] in order, the list of the outputs of the
    rules dispatched for it. *)
Definition outputs_of (flag : string) (flags : list string)
    (outs : list (list (list string))) : list (list string) :=
  concat (snd <$> filter (fun p => p.1 = flag) (zip flags outs)).

(** One entry per flag: the stable deduplication of the concatenation of
    the outputs of its rules. *)
Definition collect (flags : list string) (outs : list (list (list string)))
    : gmap string (list string) :=
  list_to_map
    ((fun flag => (flag, Dedupe (concat (outputs_of flag flags outs)))) <$> flags).

(** ** The result mapping, as the loops build it *)

(** What the inner loop of [GenerateAliases] leaves in [ret]. *)
Definition accumulate (flag : string) (ret_ : gmap string (list string))
    (outs : list (list string)) : gmap string (list string) :=
  fold_left (fun r o => <[flag := default [] (r !! flag) ++ o]> r) outs ret_.

(** What the outer loop of [GenerateAliases] leaves in [ret]. *)
Fixpoint store_all (ret_ : gmap string (list string)) (flags : list string)
    (outs : list (list (list string))) : gmap string (list string) :=
  match flags, outs with
  | flag :: flags', o :: outs' =>
      store_all
        (<[flag := Dedupe (default [] (ret_ !! flag) ++ concat o)]> ret_)
        flags' outs'
  | _, _ => ret_
  end.

(** ** What a log says about the file system *)

(** The paths handed to [ioutil.ReadFile], oldest first. *)
Definition files_read (l : list Event) : list string :=
  omap (fun ev => match ev with EvReadFile p => Some p | _ => None end) l.

(** The paths handed to [validation.FileExists], oldest first. *)
Definition files_checked (l : list Event) : list string :=
  omap (fun ev => match ev with EvFileExists p => Some p | _ => None end) l.

(** The invariant of the cache build, for a piece of it that starts with the
    cache [before] and ends as [out]: no path is checked twice, no checked
    path was cached before, every read follows a check of its own, and a
    piece that returns a cache has read all it checked and cached exactly
    that on top of [before]. *)
Definition reads_fresh {World : Type} (before : gmap string bytes)
    (out : Res (gmap string bytes) * World * list Event) : Prop :=
  NoDup (files_checked out.2)
  /\ (forall path, path ∈ files_checked out.2 -> before !! path = None)
  /\ files_read out.2 `sublist_of` files_checked out.2
  /\ (forall after, out.1.1 = Ok after ->
        files_read out.2 = files_checked out.2
        /\ forall path, is_Some (after !! path)
                        <-> is_Some (before !! path) \/ path ∈ files_checked out.2).

(** ** The resolution call, as the specification words it *)

Section Reference.
Context {World : Type} (os : OS World) (lib : Lib).

(** The branch of [generateAlias] that rule [a] takes. *)
Definition rule_kind (a : Alias) : RuleKind :=
  switch_kind lib (Canonical lib (Type_ a)).

(** The capture groups of all the matches of [re] in [content], in match
    order: of every match, everything but the whole match. *)
Definition capture_groups (re : Regexp lib) (content : string) : list string :=
  concat (drop 1 <$> FindAllStringSubmatch lib re content).

(** The cached contents of the given paths, in order; a path the cache does
    not hold contributes nothing. *)
Definition cached_contents (allFileContents : gmap string bytes)
    (paths : list string) : bytes :=
  concat ((fun path => default [] (allFileContents !! path)) <$> paths).

(** Every rule, in configured order, dispatched for one flag. *)
Definition dispatchFlag (dir : string) (allFileContents : gmap string bytes)
    (aliases : list Alias) (flag : string) : M World (list (list string)) :=
  for_each (fun a => generateAlias os lib a flag dir allFileContents) aliases.

(** Every flag in turn, every rule for it. *)
Definition dispatchAll (dir : string) (allFileContents : gmap string bytes)
    (aliases : list Alias) (flags : list string)
    : M World (list (list (list string))) :=
  for_each (dispatchFlag dir allFileContents aliases) flags.

(** Build the cache once, dispatch flags times rules, store one
    deduplicated entry per flag. *)
Definition GenerateAliases_spec (flags : list string) (aliases : list Alias)
    (dir : string) : M World (gmap string (list string)) :=
  let* allFileContents := processFileContent os lib aliases dir in
  let* outs := dispatchAll dir allFileContents aliases flags in
  ret (collect flags outs).

(** The call started in world [w] reaches the dispatch of rule [a] for
    [flag]: the cache was built, and every dispatch before this one returned
    a value.  [w3] is the world at that point and [l] the log so far. *)
Inductive dispatch_reached (flags : list string) (aliases : list Alias)
    (dir : string) (w : World)
    : string -> Alias -> gmap string bytes -> World -> list Event -> Prop :=
| reached fs1 flag fs2 as1 a as2 cache w1 l1 outs w2 l2 o w3 l3 :
    flags = fs1 ++ flag :: fs2 ->
    aliases = as1 ++ a :: as2 ->
    processFileContent os lib aliases dir w = (Ok cache, w1, l1) ->
    dispatchAll dir cache aliases fs1 w1 = (Ok outs, w2, l2) ->
    dispatchFlag dir cache as1 flag w2 = (Ok o, w3, l3) ->
    dispatch_reached flags aliases dir w flag a cache w3 (l1 ++ l2 ++ l3).

(** The first error of a call: from the cache build, or from the first
    dispatch that returns one. *)
Inductive first_error (flags : list string) (aliases : list Alias)
    (dir : string) (w : World) : error -> World -> list Event -> Prop :=
| cache_build_error e w' l :
    processFileContent os lib aliases dir w = (Err e, w', l) ->
    first_error flags aliases dir w e w' l
| rule_dispatch_error flag a cache w3 l3 e w4 l4 :
    dispatch_reached flags aliases dir w flag a cache w3 l3 ->
    generateAlias os lib a flag dir cache w3 = (Err e, w4, l4) ->
    first_error flags aliases dir w e w4 (l3 ++ l4).

End Reference.

(** ** A small concrete world

    A repository of two files, a shell with two commands, and stand-ins for
    the libraries that are just large enough to run the resolution call. *)

Module Demo.

(** [strings.ToLower] on ASCII. *)
Definition lower_ascii (c : ascii) : ascii :=
  let n := nat_of_ascii c in
  if (65 <=? n) && (n <=? 90) then ascii_of_nat (n + 32) else c.

Fixpoint strings_ToLower (s : string) : string :=
  match s with
  | EmptyString => EmptyString
  | String c rest => String (lower_ascii c) (strings_ToLower rest)
  end.

Fixpoint drop_string (n : nat) (s : string) : string :=
  match n, s with
  | S n', String _ rest => drop_string n' rest
  | _, _ => s
  end.

(** Replacing every occurrence of a non-empty [old], left to right. *)
Fixpoint replace_all (fuel : nat) (s old new : string) : string :=
  match fuel, s with
  | S fuel', String c rest =>
      if String.prefix old s
      then new +:+ replace_all fuel' (drop_string (String.length old) s) old new
      else String c (replace_all fuel' rest old new)
  | _, _ => s
  end.

Definition is_word (c : ascii) : bool :=
  let n := nat_of_ascii c in
  ((48 <=? n) && (n <=? 57)) || ((65 <=? n) && (n <=? 90))
  || ((97 <=? n) && (n <=? 122)) || (n =? 95).

Fixpoint take_word (s : string) : string :=
  match s with
  | String c rest => if is_word c then String c (take_word rest) else EmptyString
  | EmptyString => EmptyString
  end.

(** The expressions the stand-in knows: a literal, optionally followed by
    the one group [(\w+)]. *)
Record regex := { re_literal : string; re_group : bool }.

Definition has_char (c : ascii) (s : string) : bool :=
  match String.index 0 (String c EmptyString) s with
  | Some _ => true
  | None => false
  end.

Definition compile (expr : string) : regex + error :=
  match String.index 0 "(" expr with
  | None =>
      if has_char ")" expr then inr "unexpected )"
      else inl {| re_literal := expr; re_group := false |}
  | Some i =>
      if String.eqb (drop_string i expr) "(\w+)"
      then inl {| re_literal := String.substring 0 i expr; re_group := true |}
      else inr "missing closing )"
  end.

(** All non-overlapping matches, leftmost first; each match is the whole
    match followed by its groups. *)
Fixpoint find_all (fuel : nat) (re : regex) (s : string) : list (list string) :=
  match fuel, s with
  | S fuel', String _ rest =>
      if String.prefix (re_literal re) s then
        let after := drop_string (String.length (re_literal re)) s in
        if re_group re then
          let word := take_word after in
          if String.eqb word "" then find_all fuel' re rest
          else [re_literal re +:+ word; word]
               :: find_all fuel' re (drop_string (String.length word) after)
        else if String.eqb (re_literal re) "" then find_all fuel' re rest
        else [re_literal re] :: find_all fuel' re after
      else find_all fuel' re rest
  | _, _ => []
  end.

Fixpoint map_string (f : ascii -> ascii) (s : string) : string :=
  match s with
  | EmptyString => EmptyString
  | String c rest => String (f c) (map_string f rest)
  end.

(** The case converters are stand-ins that only rewrite the delimiters. *)
Definition to_delimited (s : string) (d : ascii) : string :=
  map_string
    (fun c => if Ascii.eqb c "-" || Ascii.eqb c "_" || Ascii.eqb c "."
              then d else lower_ascii c) s.

Definition lib : Lib := {|
  Regexp := regex;
  regexp_Compile := compile;
  FindAllStringSubmatch := fun re s => find_all (String.length s) re s;
  strings_ReplaceAll := fun s old new => replace_all (String.length s) s old new;
  strcase_ToLowerCamel := fun s => to_delimited s "_";
  strcase_ToCamel := fun s => to_delimited s "_";
  strcase_ToSnake := fun s => to_delimited s "_";
  strcase_ToScreamingSnake := fun s => to_delimited s "_";
  strcase_ToKebab := fun s => to_delimited s "-";
  strcase_ToDelimited := to_delimited;
  json_Unmarshal := fun out =>
    match out with
    | [] => inr "unexpected end of JSON input"
    | _ => inl [string_of_list_byte out]
    end;
  filepath_Join := fun dir path => dir +:+ "/" +:+ path;
  Canonical := strings_ToLower;
  Literal := "literal";
  CamelCase := "camelcase";
  PascalCase := "pascalcase";
  SnakeCase := "snakecase";
  UpperSnakeCase := "uppersnakecase";
  KebabCase := "kebabcase";
  DotCase := "dotcase";
  FilePattern := "filepattern";
  Command_ := "command"
|}.

(** The repository: [a.properties] ends in the middle of a key that
    [b.properties] continues. *)
Definition file (path : string) : option string :=
  if String.eqb path "/repo/a.properties" then Some "dark_mode=darkMode;new_"
  else if String.eqb path "/repo/b.properties" then Some "ui=newUi;"
  else None.

Definition glob (pattern : string) : option (list string) :=
  if String.eqb pattern "*.properties"
  then Some ["a.properties"; "b.properties"]
  else if String.eqb pattern "a.*" then Some ["a.properties"]
  else if String.eqb pattern "[" then None
  else Some [].

(** The shell: [tr] answers with its standard input, [false] exits with
    status 1, nothing else is installed. *)
Definition run (c : Cmd) : bytes + error :=
  if String.eqb (cmd_Name c) "tr" then inl (list_byte_of_string (cmd_Stdin c))
  else if String.eqb (cmd_Name c) "false" then inr "exit status 1"
  else inr "executable file not found in $PATH".

(** The world does not change. *)
Definition os : OS unit := {|
  doublestar_Glob := fun _ pattern w => (glob pattern, w);
  validation_FileExists := fun path w => (bool_decide (is_Some (file path)), w);
  ioutil_ReadFile := fun path w =>
    (match file path with
     | Some content => inl (list_byte_of_string content)
     | None => inr "no such file or directory"
     end, w);
  cmd_Output := fun c w => (run c, w)
|}.

Definition rule (type : string) : Alias := {|
  Type_ := type; Name := ""; Flags := ∅; Paths := []; Patterns := [];
  Command := None; Timeout := None
|}.

Definition properties : Alias := {|
  Type_ := "filePattern"; Name := "props"; Flags := ∅;
  Paths := ["*.properties"; "a.*"];
  Patterns := ["FLAG_KEY=(\w+)"; "FLAG_KEY"];
  Command := None; Timeout := None
|}.

Definition broken : Alias := {|
  Type_ := "filepattern"; Name := ""; Flags := ∅;
  Paths := ["*.properties"]; Patterns := ["FLAG_KEY"; "FLAG_KEY=(\w+"];
  Command := None; Timeout := None
|}.

Definition helper (command : option string) : Alias := {|
  Type_ := "command"; Name := ""; Flags := ∅; Paths := []; Patterns := [];
  Command := command; Timeout := Some 5%Z
|}.

(** A command whose executable and argument are separated by a tab. *)
Definition tabbed : string := "ls" +:+ String "009" "-l".

End Demo.

(** ** What a log says about processes and globs *)

(** The processes started, oldest first. *)
Definition commands_run (l : list Event) : list Cmd :=
  omap (fun ev => match ev with EvOutput c => Some c | _ => None end) l.

(** The glob expansions asked for, oldest first. *)
Definition globs_requested (l : list Event) : list (string * string) :=
  omap (fun ev => match ev with EvGlob b p => Some (b, p) | _ => None end) l.

(** What [exec.CommandContext] is given for rule [a] with the command
    string [command] (alias.go 110-119). *)
Definition command_of (a : Alias) (command flag dir : string) : Cmd :=
  let tokens := strings_Split command " " in
  {| cmd_Name := hd EmptyString tokens;
     cmd_Args := drop 1 tokens;
     cmd_Stdin := flag;
     cmd_Dir := dir;
     cmd_Deadline := commandDeadline a |}.

(** The requests that a dispatch of rule [a] for [flag] makes when it
    returns a value: a file-pattern rule expands its globs again, a command
    rule runs its process, the other rules ask nothing. *)
Definition requests_of (lib : Lib) (dir flag : string) (a : Alias) : list Event :=
  match rule_kind lib a with
  | KFilePattern => EvGlob dir <$> Paths a
  | KCommand =>
      match Command a with
      | Some command => [EvOutput (command_of a command flag dir)]
      | None => []
      end
  | _ => []
  end.

(** The name under which the cache build reports the rule at index [idx]
    (alias.go 141-144). *)
Definition aliasId_of (idx : nat) (a : Alias) : string :=
  if String.eqb (Name a) "" then strconv_Itoa idx else Name a.

(** What a rule that is neither a file-pattern nor a command rule gives for
    [flag] (alias.go 64-77, and falling out of the switch). *)
Definition pure_output (lib : Lib) (flag : string) (a : Alias) : list string :=
  match rule_kind lib a with
  | KLiteral => default [] (Flags a !! flag)
  | KCamelCase => [strcase_ToLowerCamel lib flag]
  | KPascalCase => [strcase_ToCamel lib flag]
  | KSnakeCase => [strcase_ToSnake lib flag]
  | KUpperSnakeCase => [strcase_ToScreamingSnake lib flag]
  | KKebabCase => [strcase_ToKebab lib flag]
  | KDotCase => [strcase_ToDelimited lib flag "."]
  | _ => []
  end.

(** A request that a dispatch may make: the expansion of a glob of a
    file-pattern rule in the base directory, or the process of a command
    rule, run in the base directory on a requested flag. *)
Definition dispatch_request (lib : Lib) (flags : list string)
    (aliases : list Alias) (dir : string) (ev : Event) : Prop :=
  match ev with
  | EvGlob basepath pattern =>
      basepath = dir
      /\ exists a, a ∈ aliases /\ rule_kind lib a = KFilePattern
                   /\ pattern ∈ Paths a
  | EvOutput c =>
      exists a command flag,
        a ∈ aliases /\ rule_kind lib a = KCommand
        /\ Command a = Some command /\ flag ∈ flags
        /\ c = command_of a command flag dir
  | EvFileExists _ | EvReadFile _ => False
  end.

(** A request that the cache build may make: the expansion of a glob of a
    file-pattern rule in the base directory, an existence check or a read;
    never a process. *)
Definition cache_request (lib : Lib) (aliases : list Alias) (dir : string)
    (ev : Event) : Prop :=
  match ev with
  | EvGlob basepath pattern =>
      basepath = dir
      /\ exists a, a ∈ aliases /\ rule_kind lib a = KFilePattern
                   /\ pattern ∈ Paths a
  | EvOutput _ => False
  | EvFileExists _ | EvReadFile _ => True
  end.

(** Whether [a] takes the command branch. *)
Definition is_command_rule (lib : Lib) (a : Alias) : bool :=
  match rule_kind lib a with KCommand => true | _ => false end.


(** Rule [a] with its timeout removed. *)
Definition without_timeout (a : Alias) : Alias :=
  {| Type_ := Type_ a; Name := Name a; Flags := Flags a; Paths := Paths a;
     Patterns := Patterns a; Command := Command a; Timeout := None |}.

(** [data] is something [ioutil.ReadFile] answers for [path]. *)
Definition read_answer {World : Type} (os : OS World) (path : string)
    (data : bytes) : Prop :=
  exists w0 w1, ioutil_ReadFile os path w0 = (inl data, w1).

(** The answers of [doublestar.Glob] do not depend on the moment it is
    asked: they are those of [answers]. *)
Definition glob_stable {World : Type} (os : OS World)
    (answers : string -> string -> option (list string)) : Prop :=
  forall basepath pattern w,
    (doublestar_Glob os basepath pattern w).1 = answers basepath pattern.

(** ** More of the concrete world *)

Module Demo2.

(** A command rule whose timeout is negative. *)
Definition impatient : Alias := {|
  Type_ := "command"; Name := ""; Flags := ∅; Paths := []; Patterns := [];
  Command := Some "tr a-z"; Timeout := Some (-3)%Z
|}.

(** A world in which a glob matches a path that is not a file. *)
Definition glob (pattern : string) : option (list string) :=
  if String.eqb pattern "*.properties"
  then Some ["a.properties"; "ghost.properties"]
  else if String.eqb pattern "[" then None
  else Some [].

Definition os : OS unit := {|
  doublestar_Glob := fun _ pattern w => (glob pattern, w);
  validation_FileExists := validation_FileExists Demo.os;
  ioutil_ReadFile := ioutil_ReadFile Demo.os;
  cmd_Output := cmd_Output Demo.os
|}.

(** A file-pattern rule without a name whose second glob is malformed. *)
Definition malformed : Alias := {|
  Type_ := "FilePattern"; Name := ""; Flags := ∅;
  Paths := ["*.properties"; "["]; Patterns := ["FLAG_KEY"];
  Command := None; Timeout := None
|}.

End Demo2.

(** [path] is the base directory joined with something a glob of a
    file-pattern rule of the configuration matched. *)
Definition matched_path {World : Type} (os : OS World) (lib : Lib)
    (aliases : list Alias) (dir path : string) : Prop :=
  exists a glob w0 w1 matches match_,
    a ∈ aliases /\ rule_kind lib a = KFilePattern /\ glob ∈ Paths a
    /\ doublestar_Glob os dir glob w0 = (Some matches, w1)
    /\ match_ ∈ matches
    /\ path = strings_Join [dir; match_] "/".

(** The paths of the file requests of a log, checks and reads alike. *)
Definition files_touched (l : list Event) : list string :=
  omap (fun ev => match ev with
                  | EvFileExists p | EvReadFile p => Some p
                  | _ => None
                  end) l.
(** * Properties *)

(** ** The monad *)

Section MonadFacts.
Context {World : Type}.
Implicit Types (w : World) (l : list Event).

Lemma bind_Ok {A B} (m : M World A) (k : A -> M World B) w v w1 l1 :
  m w = (Ok v, w1, l1) ->
  bind m k w = (let '(r, w2, l2) := k v w1 in (r, w2, l1 ++ l2)).
Proof. intros E. unfold bind. rewrite E. reflexivity. Qed.

Lemma bind_failed {A B} (m : M World A) (k : A -> M World B) w f w1 l1 :
  m w = (failed f, w1, l1) -> bind m k w = (failed f, w1, l1).
Proof. intros E. unfold bind. rewrite E. destruct f; reflexivity. Qed.

Lemma bind_Ok_inv {A B} (m : M World A) (k : A -> M World B) w y w2 l :
  bind m k w = (Ok y, w2, l) ->
  exists v w1 l1 l2,
    m w = (Ok v, w1, l1) /\ k v w1 = (Ok y, w2, l2) /\ l = l1 ++ l2.
Proof.
  unfold bind. destruct (m w) as [[[v|e|c] w1] l1]; try discriminate.
  destruct (k v w1) as [[r w2'] l2] eqn:Ek. intros [= -> -> <-].
  exists v, w1, l1, l2. auto.
Qed.

Lemma bind_ret_l {A B} (v : A) (k : A -> M World B) w :
  bind (ret v) k w = k v w.
Proof. unfold bind, ret. by destruct (k v w) as [[r w2] l2]. Qed.

Lemma bind_ret_r {A} (m : M World A) w : bind m ret w = m w.
Proof.
  unfold bind, ret. destruct (m w) as [[[v|e|c] w1] l1]; try reflexivity.
  by rewrite app_nil_r.
Qed.

Lemma bind_assoc {A B C} (m : M World A) (k : A -> M World B)
    (h : B -> M World C) w :
  bind (bind m k) h w = bind m (fun x => bind (k x) h) w.
Proof.
  unfold bind. destruct (m w) as [[[v|e|c] w1] l1]; try reflexivity.
  destruct (k v w1) as [[[y|e|c] w2] l2]; try reflexivity.
  destruct (h y w2) as [[r w3] l3]. by rewrite app_assoc.
Qed.

Lemma bind_ext_l {A B} (m m' : M World A) (k : A -> M World B) w :
  m w = m' w -> bind m k w = bind m' k w.
Proof. intros H. unfold bind. by rewrite H. Qed.

Lemma bind_ext {A B} (m : M World A) (k k' : A -> M World B) w :
  (forall v w1, k v w1 = k' v w1) -> bind m k w = bind m k' w.
Proof.
  intros H. unfold bind. destruct (m w) as [[[v|e|c] w1] l1]; try reflexivity.
  by rewrite H.
Qed.

Lemma or_fail_Ok {A} (m : M World A) wrap w v w1 l1 :
  m w = (Ok v, w1, l1) -> or_fail m wrap w = (Ok v, w1, l1).
Proof. intros E. unfold or_fail. by rewrite E. Qed.

(** *** for_each *)

Lemma for_each_length {A B} (f : A -> M World B) xs w ys w' l :
  for_each f xs w = (Ok ys, w', l) -> length ys = length xs.
Proof.
  revert w ys w' l. induction xs as [|x xs IH]; intros w ys w' l; simpl.
  - by intros [= <- _ _].
  - intros H. apply bind_Ok_inv in H as (y & w1 & l1 & l2 & _ & H & _).
    apply bind_Ok_inv in H as (ys' & w2 & l3 & l4 & H & Hr & _).
    injection Hr as <- _ _. simpl. f_equal. eauto.
Qed.

Lemma for_each_app {A B} (f : A -> M World B) xs1 xs2 w :
  for_each f (xs1 ++ xs2) w =
  (let* ys1 := for_each f xs1 in
   let* ys2 := for_each f xs2 in
   ret (ys1 ++ ys2)) w.
Proof.
  revert w. induction xs1 as [|x xs1 IH]; intros w; simpl.
  - rewrite bind_ret_l. symmetry. apply bind_ret_r.
  - unfold bind at 1 3 4. destruct (f x w) as [[[y|e|c] w1] l1]; try reflexivity.
    unfold bind at 1. rewrite IH. unfold bind, ret.
    destruct (for_each f xs1 w1) as [[[ys1|e|c] w2] l2]; try reflexivity.
    destruct (for_each f xs2 w2) as [[[ys2|e|c] w3] l3]; simpl;
      by rewrite ?app_nil_r, ?app_assoc.
Qed.

(** The loop stops at the first element whose body fails: the failure,
    the world and the log are those of the failing body. *)
Lemma for_each_stops {A B} (f : A -> M World B) xs1 x xs2 w ys w1 l1 fl w2 l2 :
  for_each f xs1 w = (Ok ys, w1, l1) ->
  f x w1 = (failed fl, w2, l2) ->
  for_each f (xs1 ++ x :: xs2) w = (failed fl, w2, l1 ++ l2).
Proof.
  intros H1 H2. rewrite for_each_app. rewrite (bind_Ok _ _ _ _ _ _ H1).
  assert (for_each f (x :: xs2) w1 = (failed fl, w2, l2)) as H3.
  { simpl. by apply bind_failed. }
  by rewrite (bind_failed _ _ _ _ _ _ H3).
Qed.

(** When the loop completes, every body returned a value. *)
Lemma for_each_Ok_elem {A B} (f : A -> M World B) xs w ys w' l x :
  for_each f xs w = (Ok ys, w', l) -> x ∈ xs ->
  exists w0 y w1 l1, f x w0 = (Ok y, w1, l1).
Proof.
  revert w ys w' l. induction xs as [|x' xs IH]; intros w ys w' l H Hin.
  - by apply elem_of_nil in Hin.
  - simpl in H. apply bind_Ok_inv in H as (y & w1 & l1 & l2 & Hf & H & _).
    apply bind_Ok_inv in H as (ys' & w2 & l3 & l4 & H & _).
    apply elem_of_cons in Hin as [->|Hin]; eauto.
Qed.
End MonadFacts.

(** ** helpers.Dedupe *)

Example Dedupe_keeps_first_occurrences :
  Dedupe ["b"; "a"; "b"; "c"; "a"] = ["b"; "a"; "c"].
Proof. reflexivity. Qed.

Example strings_Split_two_spaces :
  strings_Split "echo  hi" " " = ["echo"; ""; "hi"].
Proof. reflexivity. Qed.

Example GenerateAliases_on_the_demo_repository :
  (GenerateAliases Demo.os Demo.lib ["dark_mode"; "new_ui"]
     [Demo.properties; Demo.helper (Some "tr a-z A-Z"); Demo.rule "kebabCase";
      Demo.rule "Title Case"] "/repo" tt).1.1
  = Ok (<["dark_mode" := ["darkMode"; "dark_mode"; "dark-mode"]]>
        (<["new_ui" := ["newUi"; "new_ui"; "new-ui"]]> ∅)).
Proof. vm_compute. reflexivity. Qed.

Lemma elem_of_Dedupe_from seen s x :
  x ∈ Dedupe_from seen s <-> x ∈ s /\ x ∉ seen.
Proof.
  revert seen. induction s as [|y s IH]; intros seen; simpl.
  - set_solver.
  - destruct (decide (y ∈ seen)).
    + rewrite IH. set_solver.
    + rewrite elem_of_cons, IH. destruct (decide (x = y)); set_solver.
Qed.

Lemma NoDup_Dedupe_from seen s : NoDup (Dedupe_from seen s).
Proof.
  revert seen. induction s as [|y s IH]; intros seen; simpl.
  - constructor.
  - destruct (decide (y ∈ seen)); [apply IH|].
    constructor; [|apply IH]. rewrite elem_of_Dedupe_from. set_solver.
Qed.

Lemma Dedupe_from_app seen s1 s2 :
  Dedupe_from seen (s1 ++ s2) =
  Dedupe_from seen s1 ++ Dedupe_from (list_to_set s1 ∪ seen) s2.
Proof.
  revert seen. induction s1 as [|y s1 IH]; intros seen; simpl.
  - f_equal. set_solver.
  - destruct (decide (y ∈ seen)).
    + rewrite IH. do 2 f_equal. set_solver.
    + simpl. rewrite IH. do 3 f_equal. set_solver.
Qed.

Lemma Dedupe_from_id seen s :
  NoDup s -> (forall x, x ∈ s -> x ∉ seen) -> Dedupe_from seen s = s.
Proof.
  revert seen. induction s as [|y s IH]; intros seen Hnd Hs; simpl; [done|].
  apply NoDup_cons in Hnd as [Hy Hnd].
  destruct (decide (y ∈ seen)) as [Hin|_]; [exfalso; set_solver|].
  f_equal. apply IH; [done|]. set_solver.
Qed.

Lemma elem_of_Dedupe s x : x ∈ Dedupe s <-> x ∈ s.
Proof. unfold Dedupe. rewrite elem_of_Dedupe_from. set_solver. Qed.

Lemma NoDup_Dedupe s : NoDup (Dedupe s).
Proof. apply NoDup_Dedupe_from. Qed.

(** Deduplicating an already deduplicated prefix again changes nothing:
    this is what happens to the entry of a flag that is listed twice. *)
Lemma Dedupe_Dedupe_app s1 s2 : Dedupe (Dedupe s1 ++ s2) = Dedupe (s1 ++ s2).
Proof.
  unfold Dedupe. rewrite !Dedupe_from_app. f_equal.
  - apply Dedupe_from_id; [apply NoDup_Dedupe_from | set_solver].
  - f_equal. apply set_eq. intros x.
    rewrite !elem_of_union, !elem_of_list_to_set, elem_of_Dedupe_from.
    set_solver.
Qed.

(** First occurrence wins: the head stays, its repeats are removed from the
    deduplicated tail. *)
Lemma Dedupe_from_filter seen x s :
  Dedupe_from ({[x]} ∪ seen) s = filter (fun y => y ≠ x) (Dedupe_from seen s).
Proof.
  revert seen. induction s as [|y s IH]; intros seen; simpl; [done|].
  destruct (decide (y ∈ seen)) as [Hin|Hnin].
  - rewrite decide_True by set_solver. apply IH.
  - destruct (decide (y = x)) as [->|Hne].
    + rewrite decide_True by set_solver. rewrite filter_cons_False by naive_solver.
      rewrite <- IH. f_equal. set_solver.
    + rewrite decide_False by set_solver. rewrite filter_cons_True by done.
      f_equal. rewrite <- IH. f_equal. set_solver.
Qed.

Lemma Dedupe_cons x s : Dedupe (x :: s) = x :: filter (fun y => y ≠ x) (Dedupe s).
Proof.
  unfold Dedupe. simpl. rewrite decide_False by set_solver.
  f_equal. apply Dedupe_from_filter.
Qed.

Lemma accumulate_cons flag (ret_ : gmap string (list string)) o outs :
  accumulate flag ret_ (o :: outs)
  = accumulate flag (<[flag := default [] (ret_ !! flag) ++ o]> ret_) outs.
Proof. reflexivity. Qed.

Lemma accumulate_lookup flag (ret_ : gmap string (list string)) outs :
  default [] (accumulate flag ret_ outs !! flag)
  = default [] (ret_ !! flag) ++ concat outs.
Proof.
  revert ret_. induction outs as [|o outs IH]; intros ret_.
  - simpl. by rewrite app_nil_r.
  - rewrite accumulate_cons, IH, lookup_insert_eq. simpl.
    by rewrite app_assoc.
Qed.

Lemma accumulate_lookup_ne flag (ret_ : gmap string (list string)) outs g :
  g ≠ flag -> accumulate flag ret_ outs !! g = ret_ !! g.
Proof.
  intros Hne. revert ret_. induction outs as [|o outs IH]; intros ret_.
  - done.
  - by rewrite accumulate_cons, IH, lookup_insert_ne.
Qed.

Lemma accumulate_Dedupe flag (ret_ : gmap string (list string)) outs :
  <[flag := Dedupe (default [] (accumulate flag ret_ outs !! flag))]>
    (accumulate flag ret_ outs)
  = <[flag := Dedupe (default [] (ret_ !! flag) ++ concat outs)]> ret_.
Proof.
  apply map_eq. intros g. destruct (decide (g = flag)) as [->|Hne].
  - by rewrite !lookup_insert_eq, accumulate_lookup.
  - by rewrite !lookup_insert_ne, accumulate_lookup_ne.
Qed.

Lemma outputs_of_cons_eq flag flags o outs :
  outputs_of flag (flag :: flags) (o :: outs) = o ++ outputs_of flag flags outs.
Proof. unfold outputs_of. simpl. by rewrite filter_cons_True. Qed.

Lemma outputs_of_cons_ne flag g flags o outs :
  g ≠ flag ->
  outputs_of g (flag :: flags) (o :: outs) = outputs_of g flags outs.
Proof.
  intros Hne. unfold outputs_of. simpl. rewrite filter_cons_False; [done|].
  simpl. congruence.
Qed.

Lemma outputs_of_not_elem g flags outs :
  g ∉ flags -> outputs_of g flags outs = [].
Proof.
  revert outs. induction flags as [|flag flags IH]; intros outs Hg.
  - done.
  - destruct outs as [|o outs]; [done|].
    rewrite outputs_of_cons_ne by set_solver. apply IH. set_solver.
Qed.

Lemma store_all_lookup (ret_ : gmap string (list string)) flags outs g :
  length outs = length flags ->
  store_all ret_ flags outs !! g =
  if decide (g ∈ flags)
  then Some (Dedupe (default [] (ret_ !! g) ++ concat (outputs_of g flags outs)))
  else ret_ !! g.
Proof.
  revert ret_ outs. induction flags as [|flag flags IH]; intros ret_ outs Hlen.
  - by destruct outs.
  - destruct outs as [|o outs]; [done|]. simpl in Hlen. simpl store_all.
    rewrite IH by lia. destruct (decide (g = flag)) as [->|Hne].
    + rewrite lookup_insert_eq, outputs_of_cons_eq, concat_app. simpl.
      rewrite (decide_True (P := flag ∈ flag :: flags)) by set_solver.
      destruct (decide (flag ∈ flags)) as [Hin|Hnin].
      * by rewrite Dedupe_Dedupe_app, app_assoc.
      * by rewrite outputs_of_not_elem, app_nil_r.
    + rewrite lookup_insert_ne, outputs_of_cons_ne by done.
      destruct (decide (g ∈ flags)).
      * by rewrite decide_True by set_solver.
      * by rewrite decide_False by set_solver.
Qed.

Lemma list_to_map_fun_lookup {V} (h : string -> V) (ks : list string) g :
  (list_to_map ((fun k => (k, h k)) <$> ks) : gmap string V) !! g =
  if decide (g ∈ ks) then Some (h g) else None.
Proof.
  induction ks as [|k ks IH]; csimpl.
  - by rewrite lookup_empty.
  - destruct (decide (g = k)) as [->|Hne].
    + rewrite lookup_insert_eq. by rewrite decide_True by set_solver.
    + rewrite lookup_insert_ne, IH by done.
      destruct (decide (g ∈ ks)).
      * by rewrite decide_True by set_solver.
      * by rewrite decide_False by set_solver.
Qed.

Lemma collect_lookup flags outs g :
  collect flags outs !! g =
  if decide (g ∈ flags)
  then Some (Dedupe (concat (outputs_of g flags outs)))
  else None.
Proof. unfold collect. by rewrite list_to_map_fun_lookup. Qed.

Lemma store_all_collect flags outs :
  length outs = length flags -> store_all ∅ flags outs = collect flags outs.
Proof.
  intros Hlen. apply map_eq. intros g.
  rewrite store_all_lookup, collect_lookup by done.
  by rewrite lookup_empty.
Qed.

(** ** The loops of GenerateAliases *)

Section ResolutionFacts.
Context {World : Type} (os : OS World) (lib : Lib).
Implicit Types (w : World) (l : list Event).

Lemma dispatchRules_accumulate flag dir cache aliases ret_ w :
  dispatchRules os lib flag dir cache aliases ret_ w =
  (let* outs := dispatchFlag os lib dir cache aliases flag in
   ret (accumulate flag ret_ outs)) w.
Proof.
  unfold dispatchFlag. revert ret_ w.
  induction aliases as [|a aliases IH]; intros ret_ w; simpl.
  - by rewrite bind_ret_l.
  - rewrite bind_assoc. apply bind_ext. intros o w1.
    rewrite IH, bind_assoc. apply bind_ext. intros outs w2.
    by rewrite bind_ret_l.
Qed.

Lemma resolveFlags_store_all dir cache aliases flags ret_ w :
  resolveFlags os lib dir cache aliases flags ret_ w =
  (let* outs := dispatchAll os lib dir cache aliases flags in
   ret (store_all ret_ flags outs)) w.
Proof.
  unfold dispatchAll. revert ret_ w.
  induction flags as [|flag flags IH]; intros ret_ w; simpl.
  - by rewrite bind_ret_l.
  - rewrite (bind_ext_l _ _ _ _ (dispatchRules_accumulate _ _ _ _ _ _)).
    rewrite !bind_assoc. apply bind_ext. intros o w1.
    rewrite bind_ret_l, accumulate_Dedupe, IH, bind_assoc.
    apply bind_ext. intros outs w2. by rewrite bind_ret_l.
Qed.

(** The imperative loops compute what the specification describes. *)
Lemma GenerateAliases_collect flags aliases dir w :
  GenerateAliases os lib flags aliases dir w =
  GenerateAliases_spec os lib flags aliases dir w.
Proof.
  unfold GenerateAliases, GenerateAliases_spec. apply bind_ext.
  intros cache w1. rewrite resolveFlags_store_all. unfold bind.
  destruct (dispatchAll os lib dir cache aliases flags w1)
    as [[[outs|e|c] w2] l2] eqn:E; try reflexivity.
  rewrite store_all_collect; [done|]. eapply for_each_length, E.
Qed.

(** A completed call stored [collect] of what its dispatches returned. *)
Lemma GenerateAliases_Ok_inv flags aliases dir w ret_ w' l :
  GenerateAliases os lib flags aliases dir w = (Ok ret_, w', l) ->
  exists cache w1 l1 outs l2,
    processFileContent os lib aliases dir w = (Ok cache, w1, l1) /\
    dispatchAll os lib dir cache aliases flags w1 = (Ok outs, w', l2) /\
    ret_ = collect flags outs /\ l = l1 ++ l2.
Proof.
  rewrite GenerateAliases_collect. unfold GenerateAliases_spec. intros H.
  apply bind_Ok_inv in H as (cache & w1 & l1 & l' & Hc & H & ->).
  apply bind_Ok_inv in H as (outs & w2 & l2 & l3 & Hd & Hr & ->).
  injection Hr as <- -> <-. rewrite app_nil_r. eauto 10.
Qed.

(** A failure of the cache build is the failure of the call. *)
Lemma GenerateAliases_cache_failed flags aliases dir w f w' l :
  processFileContent os lib aliases dir w = (failed f, w', l) ->
  GenerateAliases os lib flags aliases dir w = (failed f, w', l).
Proof. intros H. unfold GenerateAliases. by apply bind_failed. Qed.

(** A failure of a dispatch that is reached is the failure of the call, and
    nothing is requested after it. *)
Lemma GenerateAliases_dispatch_failed flags aliases dir w flag a cache w3 l3
    f w4 l4 :
  dispatch_reached os lib flags aliases dir w flag a cache w3 l3 ->
  generateAlias os lib a flag dir cache w3 = (failed f, w4, l4) ->
  GenerateAliases os lib flags aliases dir w = (failed f, w4, l3 ++ l4).
Proof.
  intros Hr Hf. destruct Hr as [fs1 flag fs2 as1 a as2 cache w1 l1 outs w2 l2
    o w3 l3 -> -> Hc Hd Ho].
  rewrite GenerateAliases_collect. unfold GenerateAliases_spec.
  rewrite (bind_Ok _ _ _ _ _ _ Hc).
  assert (dispatchFlag os lib dir cache (as1 ++ a :: as2) flag w2
          = (failed f, w4, l3 ++ l4)) as Hflag.
  { unfold dispatchFlag. eapply for_each_stops; eauto. }
  assert (dispatchAll os lib dir cache (as1 ++ a :: as2) (fs1 ++ flag :: fs2) w1
          = (failed f, w4, l2 ++ l3 ++ l4)) as Hall.
  { unfold dispatchAll. eapply for_each_stops; eauto. }
  rewrite (bind_failed _ _ _ _ _ _ Hall). by rewrite <- !app_assoc.
Qed.

End ResolutionFacts.

(** * The resolution call *)

(** C1.  For every flag list, rule list and base directory,
    [GenerateAliases] is the computation that first builds the file content
    cache, then dispatches, flag by flag, every rule in configured order,
    and stores [collect]: the entry of a requested flag is the stable
    deduplication (first occurrence wins) of the concatenation of the
    outputs of its rules in that order, and nothing else has an entry.
    Both sides are compared as computations, so they also agree on the
    world they leave, on the log and on every failure. *)
Theorem GenerateAliases_cache_then_dispatch_then_dedupe
    {World : Type} (os : OS World) (lib : Lib)
    (flags : list string) (aliases : list Alias) (dir : string) (w : World) :
  GenerateAliases os lib flags aliases dir w
  = (let* allFileContents := processFileContent os lib aliases dir in
     let* outs :=
       for_each
         (fun flag =>
            for_each
              (fun a => generateAlias os lib a flag dir allFileContents)
              aliases)
         flags in
     ret (collect flags outs)) w
  /\ forall outs flag,
       collect flags outs !! flag
       = if decide (flag ∈ flags)
         then Some (Dedupe (concat (outputs_of flag flags outs)))
         else None.
Proof.
  split.
  - apply GenerateAliases_collect.
  - intros outs flag. apply collect_lookup.
Qed.

(** C2.  When [GenerateAliases] returns a mapping, the mapping has an entry
    for a key exactly when the key is a requested flag (a map holds at most
    one entry per key), and no entry lists a string twice. *)
Theorem GenerateAliases_one_entry_per_flag_no_duplicates
    {World : Type} (os : OS World) (lib : Lib)
    (flags : list string) (aliases : list Alias) (dir : string)
    (w w' : World) (ret_ : gmap string (list string)) (l : list Event) :
  GenerateAliases os lib flags aliases dir w = (Ok ret_, w', l) ->
  (forall flag, is_Some (ret_ !! flag) <-> flag ∈ flags)
  /\ (forall flag flagAliases, ret_ !! flag = Some flagAliases -> NoDup flagAliases).
Proof.
  intros H.
  apply GenerateAliases_Ok_inv in H as (cache & w1 & l1 & outs & l2 & _ & _ & -> & _).
  split.
  - intros flag. rewrite collect_lookup. case_decide.
    + split; [done | by eexists].
    + split; [by intros [? ?] | done].
  - intros flag flagAliases. rewrite collect_lookup. case_decide; [|done].
    intros [= <-]. apply NoDup_Dedupe.
Qed.

Lemma GenerateAliases_one_entry_per_flag_no_duplicates_witness :
  exists ret_ l,
    GenerateAliases Demo.os Demo.lib ["dark_mode"; "new_ui"; "dark_mode"]
      [Demo.properties; Demo.helper (Some "tr a-z A-Z"); Demo.rule "snake_case"]
      "/repo" tt = (Ok ret_, tt, l)
    /\ (forall flag, is_Some (ret_ !! flag)
                     <-> flag ∈ ["dark_mode"; "new_ui"; "dark_mode"])
    /\ (forall flag flagAliases,
          ret_ !! flag = Some flagAliases -> NoDup flagAliases).
Proof.
  eexists _, _. split.
  - vm_compute. reflexivity.
  - eapply (GenerateAliases_one_entry_per_flag_no_duplicates Demo.os Demo.lib
             ["dark_mode"; "new_ui"; "dark_mode"]
             [Demo.properties; Demo.helper (Some "tr a-z A-Z");
              Demo.rule "snake_case"] "/repo" tt tt).
    vm_compute. reflexivity.
Defined.

(** C3.  [GenerateAliases] is fail-fast: the first error, whether from the
    cache build or from a dispatch, is the error the call returns; the call
    ends in the world and with the log of the failing step, so nothing is
    requested after it, and no mapping is returned. *)
Theorem GenerateAliases_fail_fast
    {World : Type} (os : OS World) (lib : Lib)
    (flags : list string) (aliases : list Alias) (dir : string)
    (w w' : World) (e : error) (l : list Event) :
  first_error os lib flags aliases dir w e w' l ->
  GenerateAliases os lib flags aliases dir w = (Err e, w', l)
  /\ returned_value (GenerateAliases os lib flags aliases dir w).1.1 = None
  /\ returned_error (GenerateAliases os lib flags aliases dir w).1.1 = Some e.
Proof.
  intros H.
  assert (GenerateAliases os lib flags aliases dir w = (Err e, w', l)) as E.
  { destruct H as [e w' l H | flag a cache w3 l3 e w4 l4 Hr H].
    - by apply (GenerateAliases_cache_failed os lib _ _ _ _ (FErr e)).
    - eapply (GenerateAliases_dispatch_failed os lib) with (f := FErr e); eauto. }
  by rewrite E.
Qed.

Lemma GenerateAliases_fail_fast_witness :
  exists e l,
    first_error Demo.os Demo.lib ["dark_mode"; "new_ui"]
      [Demo.properties; Demo.helper (Some "false"); Demo.rule "snake_case"]
      "/repo" tt e tt l
    /\ GenerateAliases Demo.os Demo.lib ["dark_mode"; "new_ui"]
         [Demo.properties; Demo.helper (Some "false"); Demo.rule "snake_case"]
         "/repo" tt = (Err e, tt, l).
Proof.
  assert (exists e l,
    first_error Demo.os Demo.lib ["dark_mode"; "new_ui"]
      [Demo.properties; Demo.helper (Some "false"); Demo.rule "snake_case"]
      "/repo" tt e tt l) as (e & l & H).
  { eexists _, _. eapply rule_dispatch_error.
    - eapply (reached Demo.os Demo.lib _ _ _ _ [] "dark_mode" ["new_ui"]
                [Demo.properties] (Demo.helper (Some "false"))
                [Demo.rule "snake_case"]);
        [reflexivity | reflexivity | vm_compute; reflexivity ..].
    - vm_compute. reflexivity. }
  exists e, l. split; [exact H|].
  exact (proj1 (GenerateAliases_fail_fast Demo.os Demo.lib _ _ _ _ _ _ _ H)).
Defined.

(** * The rules *)

Section RuleFacts.
Context {World : Type} (os : OS World) (lib : Lib).
Implicit Types (w : World) (l : list Event) (a : Alias).

Lemma generateAlias_FilePattern a flag dir cache :
  rule_kind lib a = KFilePattern ->
  generateAlias os lib a flag dir cache =
  (let* fileContents := concatFileContents os lib dir cache (Paths a) [] in
   matchPatterns lib flag fileContents (Patterns a) []).
Proof. unfold rule_kind, generateAlias. by intros ->. Qed.

Lemma generateAlias_Command a flag dir cache :
  rule_kind lib a = KCommand ->
  generateAlias os lib a flag dir cache = runCommand os lib a flag dir.
Proof. unfold rule_kind, generateAlias. by intros ->. Qed.

(** *** Lines 81-92 *)

Lemma appendMatches_cached cache fileContents matches :
  appendMatches cache fileContents matches
  = fileContents ++ cached_contents cache matches.
Proof.
  unfold appendMatches, cached_contents. revert fileContents.
  induction matches as [|path matches IH]; intros fileContents; csimpl.
  - by rewrite app_nil_r.
  - rewrite IH. destruct (cache !! path) as [[|b data]|]; simpl;
      by rewrite ?app_nil_r, <- ?app_assoc.
Qed.

Lemma cached_contents_app cache paths1 paths2 :
  cached_contents cache (paths1 ++ paths2)
  = cached_contents cache paths1 ++ cached_contents cache paths2.
Proof. unfold cached_contents. by rewrite fmap_app, concat_app. Qed.

Lemma concatFileContents_cached dir cache paths fileContents w matches w1 l1 :
  for_each (globToAbsolutePaths os lib dir) paths w = (Ok matches, w1, l1) ->
  concatFileContents os lib dir cache paths fileContents w
  = (Ok (fileContents ++ cached_contents cache (concat matches)), w1, l1).
Proof.
  revert fileContents w matches l1.
  induction paths as [|path paths IH]; intros fileContents w matches l1; simpl.
  - intros [= <- <- <-]. unfold ret. by rewrite app_nil_r.
  - intros H. apply bind_Ok_inv in H as (ms & w2 & l2 & l3 & Hg & H & ->).
    apply bind_Ok_inv in H as (mss & w3 & l4 & l5 & Hr & H & ->).
    injection H as <- <- <-.
    rewrite (bind_Ok _ _ _ _ _ _ (or_fail_Ok _ _ _ _ _ _ Hg)).
    rewrite (IH _ _ _ _ Hr), appendMatches_cached. simpl.
    by rewrite cached_contents_app, app_nil_r, app_assoc.
Qed.

(** *** Lines 94-102 *)

Lemma appendSubmatches_groups (ret_ : list string) results :
  appendSubmatches ret_ results = ret_ ++ concat (drop 1 <$> results).
Proof.
  unfold appendSubmatches. revert ret_.
  induction results as [|res results IH]; intros ret_; csimpl.
  - by rewrite app_nil_r.
  - rewrite IH. destruct res as [|whole [|g groups]]; simpl;
      by rewrite ?app_nil_r, <- ?app_assoc.
Qed.

Lemma matchPatterns_groups flag fileContents patterns regexps ret_ w :
  Forall2
    (fun p re =>
       regexp_Compile lib (strings_ReplaceAll lib p "FLAG_KEY" flag) = inl re)
    patterns regexps ->
  matchPatterns lib flag fileContents patterns ret_ w
  = (Ok (ret_ ++ concat ((fun re => capture_groups lib re
                                      (string_of_list_byte fileContents))
                         <$> regexps)), w, []).
Proof.
  intros H. revert ret_. induction H as [|p re patterns regexps Hp _ IH];
    intros ret_; csimpl.
  - unfold ret. by rewrite app_nil_r.
  - unfold regexp_MustCompile. rewrite Hp, bind_ret_l, IH.
    by rewrite appendSubmatches_groups, <- app_assoc.
Qed.

Lemma matchPatterns_invalid flag fileContents ps1 p ps2 ret_ w e :
  Forall
    (fun q => exists re,
       regexp_Compile lib (strings_ReplaceAll lib q "FLAG_KEY" flag) = inl re)
    ps1 ->
  regexp_Compile lib (strings_ReplaceAll lib p "FLAG_KEY" flag) = inr e ->
  matchPatterns lib flag fileContents (ps1 ++ p :: ps2) ret_ w
  = (Panic (MustCompileFailed (strings_ReplaceAll lib p "FLAG_KEY" flag) e),
     w, []).
Proof.
  intros H Hp. revert ret_. induction H as [|q ps1 [re Hq] _ IH];
    intros ret_; simpl.
  - unfold regexp_MustCompile. by rewrite Hp.
  - unfold regexp_MustCompile. by rewrite Hq, bind_ret_l, IH.
Qed.

End RuleFacts.

(** C4 (as stated, refuted).  The second template of [Demo.broken] is
    invalid once the flag key is substituted, and the call on it does not
    return a pattern-compilation error, nor any error: it panics. *)
Lemma invalid_template_returns_no_error :
  rule_kind Demo.lib Demo.broken = KFilePattern
  /\ regexp_Compile Demo.lib
       (strings_ReplaceAll Demo.lib "FLAG_KEY=(\w+" "FLAG_KEY" "dark_mode")
     = inr "missing closing )"
  /\ (GenerateAliases Demo.os Demo.lib ["dark_mode"] [Demo.broken] "/repo" tt).1.1
     = Panic (MustCompileFailed "dark_mode=(\w+" "missing closing )")
  /\ returned_error
       (GenerateAliases Demo.os Demo.lib ["dark_mode"] [Demo.broken] "/repo" tt).1.1
     = None.
Proof. vm_compute. auto. Qed.

(** C4 (amended).  When the dispatch of a file-pattern rule is reached, its
    globs expand, and one of its templates is invalid after the placeholder
    is substituted while the templates before it are valid, no error is
    returned: [regexp.MustCompile] panics, the panic carries the compile
    error, and it ends the whole call then and there. *)
Theorem invalid_template_panics
    {World : Type} (os : OS World) (lib : Lib)
    (flags : list string) (aliases : list Alias) (dir : string) (w : World)
    (flag : string) (a : Alias) (cache : gmap string bytes)
    (w3 w4 : World) (l3 l4 : list Event) (fileContents : bytes)
    (ps1 ps2 : list string) (p : string) (e : error) :
  dispatch_reached os lib flags aliases dir w flag a cache w3 l3 ->
  rule_kind lib a = KFilePattern ->
  concatFileContents os lib dir cache (Paths a) [] w3
    = (Ok fileContents, w4, l4) ->
  Patterns a = ps1 ++ p :: ps2 ->
  Forall
    (fun q => exists re,
       regexp_Compile lib (strings_ReplaceAll lib q "FLAG_KEY" flag) = inl re)
    ps1 ->
  regexp_Compile lib (strings_ReplaceAll lib p "FLAG_KEY" flag) = inr e ->
  GenerateAliases os lib flags aliases dir w
    = (Panic (MustCompileFailed (strings_ReplaceAll lib p "FLAG_KEY" flag) e),
       w4, l3 ++ l4)
  /\ returned_error (GenerateAliases os lib flags aliases dir w).1.1 = None
  /\ ~ returns_normally (GenerateAliases os lib flags aliases dir w).1.1.
Proof.
  intros Hr Hk Hc Hps Hvalid Hp.
  assert (GenerateAliases os lib flags aliases dir w
    = (Panic (MustCompileFailed (strings_ReplaceAll lib p "FLAG_KEY" flag) e),
       w4, l3 ++ l4)) as E.
  { eapply (GenerateAliases_dispatch_failed os lib) with
      (f := FPanic (MustCompileFailed _ e)); [exact Hr|].
    rewrite generateAlias_FilePattern by done.
    rewrite (bind_Ok _ _ _ _ _ _ Hc), Hps.
    rewrite (matchPatterns_invalid lib _ _ _ _ _ _ _ _ Hvalid Hp).
    simpl. by rewrite app_nil_r. }
  rewrite E. simpl. auto.
Qed.

Lemma invalid_template_panics_witness :
  exists l,
    GenerateAliases Demo.os Demo.lib ["dark_mode"; "new_ui"]
      [Demo.rule "kebabcase"; Demo.broken] "/repo" tt
    = (Panic (MustCompileFailed "dark_mode=(\w+" "missing closing )"), tt, l).
Proof.
  eexists.
  refine (proj1 (invalid_template_panics Demo.os Demo.lib
    ["dark_mode"; "new_ui"] [Demo.rule "kebabcase"; Demo.broken] "/repo" tt
    "dark_mode" Demo.broken _ tt tt _ _ _ ["FLAG_KEY"] [] "FLAG_KEY=(\w+"
    "missing closing )" _ _ _ _ _ _)).
  - eapply (reached Demo.os Demo.lib _ _ _ _ [] "dark_mode" ["new_ui"]
              [Demo.rule "kebabcase"] Demo.broken []);
      [reflexivity | reflexivity | vm_compute; reflexivity ..].
  - vm_compute. reflexivity.
  - vm_compute. reflexivity.
  - reflexivity.
  - repeat constructor. eexists. vm_compute. reflexivity.
  - vm_compute. reflexivity.
Defined.

(** C5.  For a file-pattern rule whose globs expand and whose templates
    compile, the aliases are the capture groups and nothing else: template
    by template in the order of the rule, match by match within a template,
    every match contributes all it holds after the whole match.  A template
    whose matches hold the whole match only contributes nothing, however
    many matches it has. *)
Theorem file_pattern_collects_capture_groups
    {World : Type} (os : OS World) (lib : Lib)
    (a : Alias) (flag dir : string) (cache : gmap string bytes)
    (w w1 : World) (l1 : list Event) (fileContents : bytes)
    (regexps : list (Regexp lib)) :
  rule_kind lib a = KFilePattern ->
  concatFileContents os lib dir cache (Paths a) [] w
    = (Ok fileContents, w1, l1) ->
  Forall2
    (fun p re =>
       regexp_Compile lib (strings_ReplaceAll lib p "FLAG_KEY" flag) = inl re)
    (Patterns a) regexps ->
  generateAlias os lib a flag dir cache w
    = (Ok (concat
             ((fun re =>
                 concat (drop 1 <$> FindAllStringSubmatch lib re
                                      (string_of_list_byte fileContents)))
              <$> regexps)),
       w1, l1)
  /\ forall re,
       Forall (fun res => length res = 1)
         (FindAllStringSubmatch lib re (string_of_list_byte fileContents)) ->
       concat (drop 1 <$> FindAllStringSubmatch lib re
                            (string_of_list_byte fileContents)) = [].
Proof.
  intros Hk Hc Hre. split.
  - rewrite generateAlias_FilePattern by done.
    rewrite (bind_Ok _ _ _ _ _ _ Hc).
    rewrite (matchPatterns_groups lib _ _ _ _ _ _ Hre).
    simpl. by rewrite app_nil_r.
  - intros re H. induction H as [|res results Hres _ IH]; csimpl; [done|].
    rewrite IH. by destruct res as [|whole [|g groups]].
Qed.

Lemma file_pattern_collects_capture_groups_witness :
  exists cache l,
    processFileContent Demo.os Demo.lib [Demo.properties] "/repo" tt
      = (Ok cache, tt, l)
    /\ (generateAlias Demo.os Demo.lib Demo.properties "dark_mode" "/repo"
          cache tt).1.1
       = Ok ["darkMode"; "darkMode"].
Proof.
  eexists _, _. split; [vm_compute; reflexivity|].
  refine (eq_trans (f_equal (fun r => r.1.1)
    (proj1 (file_pattern_collects_capture_groups Demo.os Demo.lib
      Demo.properties "dark_mode" "/repo" _ tt tt _ _
      [ {| Demo.re_literal := "dark_mode="; Demo.re_group := true |};
        {| Demo.re_literal := "dark_mode"; Demo.re_group := false |} ]
      _ _ _))) _).
  - vm_compute. reflexivity.
  - vm_compute. reflexivity.
  - repeat constructor.
  - vm_compute. reflexivity.
Defined.

(** C6.  For a file-pattern rule whose globs expand, the buffer the
    templates are matched against is the concatenation, glob by glob in the
    order of the rule and match by match in the order of the glob, of what
    the cache holds for each matched path: a path matched twice is taken
    twice, a path the cache does not hold (or holds as empty) adds nothing.
    The templates see that one buffer, so a match may begin in one file and
    end in the next. *)
Theorem file_pattern_matches_the_concatenation
    {World : Type} (os : OS World) (lib : Lib)
    (a : Alias) (flag dir : string) (cache : gmap string bytes)
    (w w1 : World) (l1 : list Event) (matches : list (list string)) :
  rule_kind lib a = KFilePattern ->
  for_each (globToAbsolutePaths os lib dir) (Paths a) w = (Ok matches, w1, l1) ->
  concatFileContents os lib dir cache (Paths a) [] w
    = (Ok (concat ((fun path => default [] (cache !! path)) <$> concat matches)),
       w1, l1)
  /\ generateAlias os lib a flag dir cache w
     = (let '(r, w2, l2) :=
          matchPatterns lib flag
            (concat ((fun path => default [] (cache !! path)) <$> concat matches))
            (Patterns a) [] w1 in
        (r, w2, l1 ++ l2)).
Proof.
  intros Hk Hg.
  pose proof (concatFileContents_cached os lib dir cache _ [] _ _ _ _ Hg) as Hc.
  simpl in Hc. split; [exact Hc|].
  rewrite generateAlias_FilePattern by done.
  by rewrite (bind_Ok _ _ _ _ _ _ Hc).
Qed.

Lemma file_pattern_matches_the_concatenation_witness :
  exists cache l,
    processFileContent Demo.os Demo.lib [Demo.properties] "/repo" tt
      = (Ok cache, tt, l)
    /\ string_of_list_byte
         (concat ((fun path => default [] (cache !! path)) <$>
                  ["/repo/a.properties"; "/repo/b.properties";
                   "/repo/a.properties"]))
       = "dark_mode=darkMode;new_ui=newUi;dark_mode=darkMode;new_"
    /\ (generateAlias Demo.os Demo.lib Demo.properties "new_ui" "/repo"
          cache tt).1.1
       = Ok ["newUi"].
Proof.
  eexists _, _. split; [vm_compute; reflexivity|].
  split; [vm_compute; reflexivity|].
  refine (eq_trans (f_equal (fun r => r.1.1)
    (proj2 (file_pattern_matches_the_concatenation Demo.os Demo.lib
      Demo.properties "new_ui" "/repo" _ tt tt _
      [["/repo/a.properties"; "/repo/b.properties"]; ["/repo/a.properties"]]
      _ _))) _).
  - vm_compute. reflexivity.
  - vm_compute. reflexivity.
  - vm_compute. reflexivity.
Defined.

(** * The cache build *)

Lemma files_read_app l1 l2 : files_read (l1 ++ l2) = files_read l1 ++ files_read l2.
Proof. apply omap_app. Qed.

Lemma files_checked_app l1 l2 :
  files_checked (l1 ++ l2) = files_checked l1 ++ files_checked l2.
Proof. apply omap_app. Qed.

Section CacheFacts.
Context {World : Type} (os : OS World) (lib : Lib).
Implicit Types (w : World) (l : list Event) (cache : gmap string bytes).

(** A piece that returns the cache it was given and touches no file. *)
Lemma reads_fresh_silent cache (r : Res (gmap string bytes)) w l :
  files_checked l = [] -> files_read l = [] ->
  (forall after, r = Ok after -> after = cache) ->
  reads_fresh cache (r, w, l).
Proof.
  intros Hc Hr Hsame. unfold reads_fresh. simpl. rewrite Hc, Hr.
  split; [constructor|]. split; [by intros ? ?%elem_of_nil|].
  split; [done|]. intros after ->%Hsame. split; [done|].
  intros path. split; [auto | by intros [?|?%elem_of_nil]].
Qed.

(** Two pieces in sequence. *)
Lemma reads_fresh_bind cache (m : M World (gmap string bytes))
    (k : gmap string bytes -> M World (gmap string bytes)) w :
  reads_fresh cache (m w) ->
  (forall cache1 w1, reads_fresh cache1 (k cache1 w1)) ->
  reads_fresh cache (bind m k w).
Proof.
  intros Hm Hk. unfold bind.
  destruct (m w) as [[[cache1|e|c] w1] l1] eqn:Em.
  2,3: (destruct Hm as (? & ? & ? & _); repeat split; try done).
  specialize (Hk cache1 w1).
  destruct (k cache1 w1) as [[r w2] l2].
  destruct Hm as (Hnd1 & Hfresh1 & Hsub1 & Hok1).
  destruct Hk as (Hnd2 & Hfresh2 & Hsub2 & Hok2). simpl in *.
  destruct (Hok1 _ eq_refl) as [Hrc1 Hdom1].
  assert (forall path, path ∈ files_checked l2 -> cache !! path = None
                       /\ path ∉ files_checked l1) as Hnew.
  { intros path Hin. specialize (Hfresh2 _ Hin).
    assert (~ is_Some (cache1 !! path)) as Hn by (rewrite Hfresh2; by intros [? ?]).
    rewrite Hdom1 in Hn. split; [|tauto].
    destruct (cache !! path) eqn:E; [|done]. exfalso. apply Hn. left. by eexists. }
  unfold reads_fresh. simpl. rewrite files_checked_app, files_read_app.
  split.
  { apply NoDup_app. split; [done|]. split; [|done].
    intros path H1 H2. by apply (Hnew _ H2). }
  split.
  { intros path [H|H]%elem_of_app; [auto | by apply Hnew]. }
  split; [by apply sublist_app|].
  intros after ->. destruct (Hok2 _ eq_refl) as [Hrc2 Hdom2].
  split; [by rewrite Hrc1, Hrc2|].
  intros path. rewrite Hdom2, Hdom1, elem_of_app. tauto.
Qed.

(** A piece that touches no file, followed by a piece. *)
Lemma reads_fresh_after_globs {A} cache (m : M World A)
    (k : A -> M World (gmap string bytes)) w :
  (files_checked (m w).2 = [] /\ files_read (m w).2 = []) ->
  (forall v w1, reads_fresh cache (k v w1)) ->
  reads_fresh cache (bind m k w).
Proof.
  intros [Hc Hr] Hk. unfold bind.
  destruct (m w) as [[[v|e|c] w1] l1] eqn:Em; simpl in *.
  - specialize (Hk v w1). destruct (k v w1) as [[r w2] l2].
    unfold reads_fresh in *. simpl in *.
    by rewrite files_checked_app, files_read_app, Hc, Hr.
  - by apply reads_fresh_silent.
  - by apply reads_fresh_silent.
Qed.

Lemma globToAbsolutePaths_log basepath pattern w :
  (globToAbsolutePaths os lib basepath pattern w).2 = [EvGlob basepath pattern].
Proof.
  unfold globToAbsolutePaths, bind, Glob.
  destruct (doublestar_Glob os basepath pattern w) as [[matches|] w1]; reflexivity.
Qed.

Lemma expandGlobs_touches_no_file aliasId dir globs paths w :
  files_checked (expandGlobs os lib aliasId dir globs paths w).2 = []
  /\ files_read (expandGlobs os lib aliasId dir globs paths w).2 = [].
Proof.
  revert paths w. induction globs as [|glob globs IH]; intros paths w; simpl.
  - done.
  - unfold bind, or_fail.
    pose proof (globToAbsolutePaths_log dir glob w) as Hlog.
    destruct (globToAbsolutePaths os lib dir glob w) as [[[ms|e|c] w1] l1];
      simpl in Hlog; subst l1; try done.
    specialize (IH (paths ++ ms) w1).
    destruct (expandGlobs os lib aliasId dir globs (paths ++ ms) w1)
      as [[r w2] l2]. by simpl in *.
Qed.

(** A path the cache holds is skipped: nothing is asked of the file
    system. *)
Lemma readPath_cached aliasId cache path w :
  is_Some (cache !! path) -> readPath os aliasId cache path w = (Ok cache, w, []).
Proof. intros [data H]. unfold readPath. by rewrite H. Qed.

Lemma readPath_fresh aliasId cache path w :
  reads_fresh cache (readPath os aliasId cache path w).
Proof.
  unfold readPath. destruct (cache !! path) as [data|] eqn:E.
  - by apply reads_fresh_silent; [..|intros ? [= <-]].
  - unfold bind, FileExists, or_fail, ReadFile.
    destruct (validation_FileExists os path w) as [[|] w1]; simpl.
    + destruct (ioutil_ReadFile os path w1) as [[data|e] w2]; simpl;
        unfold reads_fresh; simpl.
      * split; [apply NoDup_singleton|].
        split; [by intros ? ->%list_elem_of_singleton|].
        split; [done|]. intros after [= <-]. split; [done|].
        intros p. rewrite lookup_insert_is_Some, list_elem_of_singleton.
        destruct (decide (path = p)); naive_solver.
      * split; [apply NoDup_singleton|].
        split; [by intros ? ->%list_elem_of_singleton|]. by split.
    + unfold reads_fresh. simpl. split; [apply NoDup_singleton|].
      split; [by intros ? ->%list_elem_of_singleton|].
      split; [apply sublist_nil_l | done].
Qed.

Lemma readPaths_fresh aliasId paths cache w :
  reads_fresh cache (readPaths os aliasId paths cache w).
Proof.
  revert cache w. induction paths as [|path paths IH]; intros cache w; simpl.
  - by apply reads_fresh_silent; [..|intros ? [= <-]].
  - apply reads_fresh_bind; [apply readPath_fresh | auto].
Qed.

Lemma processRules_fresh dir idx aliases cache w :
  reads_fresh cache (processRules os lib dir idx aliases cache w).
Proof.
  revert idx cache w.
  induction aliases as [|a aliases IH]; intros idx cache w; simpl.
  - by apply reads_fresh_silent; [..|intros ? [= <-]].
  - destruct (switch_kind lib (Canonical lib (Type_ a))); try apply IH.
    apply reads_fresh_after_globs; [apply expandGlobs_touches_no_file|].
    intros paths w1. apply reads_fresh_bind; [apply readPaths_fresh | auto].
Qed.

End CacheFacts.

(** C7.  During the cache build no path is handed to [ioutil.ReadFile]
    twice and none to [validation.FileExists] twice, whatever the rules and
    globs are and however the build ends; a path the cache already holds is
    skipped with no request at all; and the cache that is returned holds
    exactly the paths that were read, each under its one key. *)
Theorem processFileContent_reads_each_path_once
    {World : Type} (os : OS World) (lib : Lib)
    (aliases : list Alias) (dir : string) (w : World) :
  (forall aliasId cache path w0,
     is_Some (cache !! path) ->
     readPath os aliasId cache path w0 = (Ok cache, w0, []))
  /\ let '(r, w', l) := processFileContent os lib aliases dir w in
     NoDup (files_read l)
     /\ NoDup (files_checked l)
     /\ forall cache, r = Ok cache ->
          forall path, is_Some (cache !! path) <-> path ∈ files_read l.
Proof.
  split; [intros; by apply readPath_cached|].
  pose proof (processRules_fresh os lib dir 0 aliases ∅ w) as H.
  unfold processFileContent.
  destruct (processRules os lib dir 0 aliases ∅ w) as [[r w'] l].
  destruct H as (Hnd & _ & Hsub & Hok). simpl in *.
  split; [by eapply sublist_NoDup|]. split; [done|].
  intros cache ->. destruct (Hok _ eq_refl) as [-> Hdom].
  intros path. rewrite Hdom, lookup_empty. split; [|auto].
  by intros [[? [=]]|?].
Qed.

(** * Command rules and unrecognized rules *)

Lemma split_where_nonempty is_sep s : split_where is_sep s ≠ [].
Proof.
  destruct s as [|c s]; simpl; [done|].
  destruct (is_sep c); [done|]. by destruct (split_where is_sep s).
Qed.

Lemma strings_Join_cons e e' rest sep :
  strings_Join (e :: e' :: rest) sep = e +:+ sep +:+ strings_Join (e' :: rest) sep.
Proof. reflexivity. Qed.

(** Joining the pieces with the separator gives the string back. *)
Lemma strings_Split_Join s sep :
  strings_Join (strings_Split s sep) (String sep EmptyString) = s.
Proof.
  unfold strings_Split. induction s as [|c s IH]; simpl; [done|].
  pose proof (split_where_nonempty (fun c => Ascii.eqb c sep) s) as Hne.
  destruct (Ascii.eqb_spec c sep) as [->|Hc].
  - destruct (split_where _ s) as [|tok toks]; [done|].
    rewrite strings_Join_cons, IH. reflexivity.
  - destruct (split_where _ s) as [|tok [|tok' toks]]; [done|..].
    + simpl in *. by rewrite IH.
    + rewrite strings_Join_cons in *. simpl. by rewrite <- IH.
Qed.

(** No piece holds the separator. *)
Lemma strings_Split_no_sep s sep :
  Forall (fun tok => contains_byte sep tok = false) (strings_Split s sep).
Proof.
  unfold strings_Split. induction s as [|c s IH]; simpl.
  - by repeat constructor.
  - destruct (Ascii.eqb_spec c sep) as [->|Hc].
    + by constructor.
    + destruct (split_where _ s) as [|tok toks]; simpl.
      * repeat constructor. simpl. by rewrite (proj2 (Ascii.eqb_neq _ _) Hc).
      * apply Forall_cons in IH as [Htok Htoks]. constructor; [|done].
        simpl. by rewrite (proj2 (Ascii.eqb_neq _ _) Hc).
Qed.

(** C8 (as stated, refuted).  A tab is white space, and splitting
    [Demo.tabbed] on white space gives the executable [ls] and the argument
    [-l]; the code splits on the space byte only, and asks for the
    executable named by the whole string, without arguments. *)
Lemma tab_does_not_separate_arguments :
  split_on_whitespace Demo.tabbed = ["ls"; "-l"]
  /\ (generateAlias Demo.os Demo.lib (Demo.helper (Some Demo.tabbed))
        "dark_mode" "/repo" ∅ tt).2
     = [EvOutput {| cmd_Name := Demo.tabbed; cmd_Args := [];
                    cmd_Stdin := "dark_mode"; cmd_Dir := "/repo";
                    cmd_Deadline := Some 5%Z |}]
  /\ Demo.tabbed ≠ "ls".
Proof.
  split; [reflexivity|]. split; [vm_compute; reflexivity|].
  vm_compute. discriminate.
Qed.

(** C8 (amended).  For a command rule with a command string, the argument
    vector is the command string split at every space byte, and at nothing
    else: joining the tokens with single spaces gives the command string
    back and no token holds a space, so no quoting or escaping is
    interpreted.  The first token is the executable and the remaining ones
    are the arguments; exactly one process is run, in the base directory,
    with the flag key as its standard input, and its outcome decides the
    result of the rule. *)
Theorem command_rule_splits_on_spaces
    {World : Type} (os : OS World) (lib : Lib)
    (a : Alias) (flag dir : string) (cache : gmap string bytes) (w : World)
    (command : string) :
  rule_kind lib a = KCommand ->
  Command a = Some command ->
  exists name args,
    strings_Split command " " = name :: args
    /\ strings_Join (name :: args) " " = command
    /\ Forall (fun tok => contains_byte " " tok = false) (name :: args)
    /\ generateAlias os lib a flag dir cache w
       = (let cmd := {| cmd_Name := name; cmd_Args := args;
                        cmd_Stdin := flag; cmd_Dir := dir;
                        cmd_Deadline := commandDeadline a |} in
          let '(out, w') := cmd_Output os cmd w in
          (match out with
           | inl stdout =>
               match json_Unmarshal lib stdout with
               | inl ret_ => Ok ret_
               | inr err =>
                   Err ("could not unmarshal json output of alias command: "
                        +:+ err)
               end
           | inr err => Err ("failed to execute alias command: " +:+ err)
           end, w', [EvOutput cmd])).
Proof.
  intros Hk Hc.
  pose proof (strings_Split_Join command " ") as Hjoin.
  pose proof (strings_Split_no_sep command " ") as Hsep.
  pose proof (split_where_nonempty (fun c => Ascii.eqb c " ") command) as Hne.
  rewrite generateAlias_Command by done. unfold runCommand. rewrite Hc.
  fold (strings_Split command " ") in Hne.
  destruct (strings_Split command " ") as [|name args]; [done|].
  exists name, args. repeat split; try done.
  assert ((if 1 <? length (name :: args) then drop 1 (name :: args) else [])
          = args) as -> by (by destruct args).
  cbn [hd]. unfold bind, or_fail, Output.
  destruct (cmd_Output os _ w) as [[stdout|err] w']; [|done].
  destruct (json_Unmarshal lib stdout) as [ret_|err]; reflexivity.
Qed.

Lemma command_rule_splits_on_spaces_witness :
  strings_Split "tr a-z  A-Z" " " = ["tr"; "a-z"; ""; "A-Z"]
  /\ exists name args,
       strings_Split "tr a-z  A-Z" " " = name :: args
       /\ strings_Join (name :: args) " " = "tr a-z  A-Z"
       /\ Forall (fun tok => contains_byte " " tok = false) (name :: args)
       /\ generateAlias Demo.os Demo.lib (Demo.helper (Some "tr a-z  A-Z"))
            "dark_mode" "/repo" ∅ tt
          = (let cmd := {| cmd_Name := name; cmd_Args := args;
                           cmd_Stdin := "dark_mode"; cmd_Dir := "/repo";
                           cmd_Deadline :=
                             commandDeadline (Demo.helper (Some "tr a-z  A-Z")) |} in
             let '(out, w') := cmd_Output Demo.os cmd tt in
             (match out with
              | inl stdout =>
                  match json_Unmarshal Demo.lib stdout with
                  | inl ret_ => Ok ret_
                  | inr err =>
                      Err ("could not unmarshal json output of alias command: "
                           +:+ err)
                  end
              | inr err => Err ("failed to execute alias command: " +:+ err)
              end, w', [EvOutput cmd])).
Proof.
  split; [reflexivity|].
  apply (command_rule_splits_on_spaces Demo.os Demo.lib
           (Demo.helper (Some "tr a-z  A-Z")) "dark_mode" "/repo" ∅ tt
           "tr a-z  A-Z").
  - vm_compute. reflexivity.
  - reflexivity.
Defined.

(** C9.  A rule whose canonical type is none of the nine recognized ones
    falls out of the switch: [generateAlias] returns the empty list and no
    error, and asks nothing of the world. *)
Theorem unrecognized_rule_is_skipped
    {World : Type} (os : OS World) (lib : Lib)
    (a : Alias) (flag dir : string) (cache : gmap string bytes) (w : World) :
  Canonical lib (Type_ a) ≠ Literal lib ->
  Canonical lib (Type_ a) ≠ CamelCase lib ->
  Canonical lib (Type_ a) ≠ PascalCase lib ->
  Canonical lib (Type_ a) ≠ SnakeCase lib ->
  Canonical lib (Type_ a) ≠ UpperSnakeCase lib ->
  Canonical lib (Type_ a) ≠ KebabCase lib ->
  Canonical lib (Type_ a) ≠ DotCase lib ->
  Canonical lib (Type_ a) ≠ FilePattern lib ->
  Canonical lib (Type_ a) ≠ Command_ lib ->
  generateAlias os lib a flag dir cache w = (Ok [], w, []).
Proof.
  intros H1 H2 H3 H4 H5 H6 H7 H8 H9. unfold generateAlias, switch_kind.
  apply String.eqb_neq in H1, H2, H3, H4, H5, H6, H7, H8, H9.
  by rewrite H1, H2, H3, H4, H5, H6, H7, H8, H9.
Qed.

Lemma unrecognized_rule_is_skipped_witness :
  generateAlias Demo.os Demo.lib (Demo.rule "Title Case") "dark_mode" "/repo"
    ∅ tt = (Ok [], tt, []).
Proof.
  apply (unrecognized_rule_is_skipped Demo.os Demo.lib (Demo.rule "Title Case")
           "dark_mode" "/repo" ∅ tt); vm_compute; discriminate.
Defined.

(** C10 (as stated, refuted).  With no flag to resolve no rule is
    dispatched, and the call returns a mapping although its command rule
    carries no command string. *)
Lemma absent_command_yet_normal_return :
  rule_kind Demo.lib (Demo.helper None) = KCommand
  /\ Command (Demo.helper None) = None
  /\ GenerateAliases Demo.os Demo.lib [] [Demo.helper None] "/repo" tt
     = (Ok ∅, tt, [])
  /\ returns_normally
       (GenerateAliases Demo.os Demo.lib [] [Demo.helper None] "/repo" tt).1.1.
Proof. vm_compute. auto. Qed.

(** C10 (amended).  A command rule that carries no command string panics
    at the dereference whenever it is dispatched, before any process is
    started and without returning an error.  So a call that reaches such a
    dispatch panics there, and a call whose rules include such a rule
    returns a mapping only for the empty flag list. *)
Theorem absent_command_panics_when_dispatched
    {World : Type} (os : OS World) (lib : Lib)
    (flags : list string) (aliases : list Alias) (dir : string) (w : World)
    (a : Alias) :
  rule_kind lib a = KCommand ->
  Command a = None ->
  a ∈ aliases ->
  (forall flag cache w0,
     generateAlias os lib a flag dir cache w0 = (Panic NilDereference, w0, []))
  /\ (forall flag cache w3 l3,
        dispatch_reached os lib flags aliases dir w flag a cache w3 l3 ->
        GenerateAliases os lib flags aliases dir w
        = (Panic NilDereference, w3, l3))
  /\ (forall ret_ w' l,
        GenerateAliases os lib flags aliases dir w = (Ok ret_, w', l) ->
        flags = []).
Proof.
  intros Hk Hc Hin.
  assert (forall flag cache w0,
    generateAlias os lib a flag dir cache w0 = (Panic NilDereference, w0, []))
    as Hpanic.
  { intros. rewrite generateAlias_Command by done. unfold runCommand.
    by rewrite Hc. }
  split; [exact Hpanic|]. split.
  - intros flag cache w3 l3 Hr.
    rewrite <- (app_nil_r l3).
    by apply (GenerateAliases_dispatch_failed os lib _ _ _ _ _ _ _ _ _
                (FPanic NilDereference) _ _ Hr).
  - intros ret_ w' l H.
    apply GenerateAliases_Ok_inv in H as (cache & w1 & l1 & outs & l2 & _ & H & _).
    destruct flags as [|flag flags']; [done|]. exfalso.
    destruct (for_each_Ok_elem _ _ _ _ _ _ flag H) as (w0 & o & w2 & l0 & Hf);
      [by left|].
    destruct (for_each_Ok_elem _ _ _ _ _ _ a Hf) as (w3 & y & w4 & l3 & Ha);
      [done|].
    by rewrite Hpanic in Ha.
Qed.

Lemma absent_command_panics_when_dispatched_witness :
  exists l,
    GenerateAliases Demo.os Demo.lib ["dark_mode"]
      [Demo.properties; Demo.helper None] "/repo" tt
    = (Panic NilDereference, tt, l).
Proof.
  eexists.
  refine (proj1 (proj2 (absent_command_panics_when_dispatched Demo.os Demo.lib
    ["dark_mode"] [Demo.properties; Demo.helper None] "/repo" tt
    (Demo.helper None) _ _ _)) "dark_mode" _ tt _ _).
  - vm_compute. reflexivity.
  - reflexivity.
  - right. left.
  - eapply (reached Demo.os Demo.lib _ _ _ _ [] "dark_mode" []
              [Demo.properties] (Demo.helper None) []);
      [reflexivity | reflexivity | vm_compute; reflexivity ..].
Defined.

(** * Further properties of alias.go *)

(** ** Rules that ask nothing of the world *)

Lemma for_each_pure {World A B} (f : A -> M World B) (g : A -> B) xs w :
  (forall x w0, x ∈ xs -> f x w0 = (Ok (g x), w0, [])) ->
  for_each f xs w = (Ok (g <$> xs), w, []).
Proof.
  induction xs as [|x xs IH]; intros H; csimpl; [done|].
  rewrite (bind_Ok _ _ _ _ _ _ (H x w ltac:(left))).
  rewrite (bind_Ok _ _ _ _ _ _ (IH (fun y w0 Hy => H y w0 ltac:(by right)))).
  reflexivity.
Qed.

Lemma generateAlias_pure {World : Type} (os : OS World) (lib : Lib)
    a flag dir cache (w : World) :
  rule_kind lib a ≠ KFilePattern -> rule_kind lib a ≠ KCommand ->
  generateAlias os lib a flag dir cache w = (Ok (pure_output lib flag a), w, []).
Proof.
  unfold pure_output, rule_kind, generateAlias. intros Hf Hc.
  by destruct (switch_kind lib (Canonical lib (Type_ a))).
Qed.

Lemma processRules_no_file_pattern {World : Type} (os : OS World) (lib : Lib)
    dir idx aliases cache (w : World) :
  Forall (fun a => rule_kind lib a ≠ KFilePattern) aliases ->
  processRules os lib dir idx aliases cache w = (Ok cache, w, []).
Proof.
  intros H. revert idx. induction H as [|a aliases Ha _ IH]; intros idx; simpl.
  - done.
  - unfold rule_kind in Ha.
    destruct (switch_kind lib (Canonical lib (Type_ a))); try done; apply IH.
Qed.

Lemma Dedupe_from_all_seen seen s :
  (forall x, x ∈ s -> x ∈ seen) -> Dedupe_from seen s = [].
Proof.
  induction s as [|y s IH]; intros H; simpl; [done|].
  rewrite decide_True by (apply H; by left). apply IH. intros x Hx.
  apply H. by right.
Qed.

(** Repeating strings that are already there does not change the
    deduplicated list. *)
Lemma Dedupe_app_repeats s1 s2 :
  (forall x, x ∈ s2 -> x ∈ s1) -> Dedupe (s1 ++ s2) = Dedupe s1.
Proof.
  intros H. unfold Dedupe. rewrite Dedupe_from_app.
  rewrite (Dedupe_from_all_seen _ s2), app_nil_r; [done|].
  intros x Hx. apply elem_of_union_l, elem_of_list_to_set. auto.
Qed.

(** When every occurrence of a flag gets the same outputs, its entry is
    computed from one occurrence. *)
Lemma outputs_of_same (h : string -> list (list string)) flag flags x :
  x ∈ concat (outputs_of flag flags (h <$> flags)) -> x ∈ concat (h flag).
Proof.
  induction flags as [|f flags IH]; csimpl.
  - by intros ?%elem_of_nil.
  - destruct (decide (f = flag)) as [->|Hne].
    + rewrite outputs_of_cons_eq, concat_app, elem_of_app. intros [?|?]; auto.
    + by rewrite outputs_of_cons_ne.
Qed.

Lemma Dedupe_outputs_of_same (h : string -> list (list string)) flag flags :
  flag ∈ flags ->
  Dedupe (concat (outputs_of flag flags (h <$> flags))) = Dedupe (concat (h flag)).
Proof.
  induction flags as [|f flags IH]; csimpl.
  - by intros ?%elem_of_nil.
  - destruct (decide (f = flag)) as [->|Hne].
    + intros _. rewrite outputs_of_cons_eq, concat_app.
      apply Dedupe_app_repeats. intros x. apply outputs_of_same.
    + intros [?|?]%elem_of_cons; [done|]. rewrite outputs_of_cons_ne by done.
      auto.
Qed.

Lemma GenerateAliases_pure_rules {World : Type} (os : OS World) (lib : Lib)
    flags aliases dir (w : World) :
  Forall (fun a => rule_kind lib a ≠ KFilePattern /\ rule_kind lib a ≠ KCommand)
    aliases ->
  exists ret_,
    GenerateAliases os lib flags aliases dir w = (Ok ret_, w, [])
    /\ forall flag,
         ret_ !! flag
         = if decide (flag ∈ flags)
           then Some (Dedupe (concat (pure_output lib flag <$> aliases)))
           else None.
Proof.
  intros H.
  exists (collect flags ((fun flag => pure_output lib flag <$> aliases) <$> flags)).
  split.
  - rewrite GenerateAliases_collect.
    unfold GenerateAliases_spec, processFileContent.
    rewrite (bind_Ok _ _ _ _ _ _
      (processRules_no_file_pattern os lib dir 0 aliases ∅ w
         (Forall_impl _ _ _ H (fun a Ha => proj1 Ha)))).
    assert (dispatchAll os lib dir ∅ aliases flags w
            = (Ok ((fun flag => pure_output lib flag <$> aliases) <$> flags),
               w, [])) as Hd.
    { unfold dispatchAll. apply for_each_pure. intros flag w0 _.
      unfold dispatchFlag. apply for_each_pure. intros a w1 Ha.
      rewrite Forall_forall in H. destruct (H a Ha).
      by apply generateAlias_pure. }
    by rewrite (bind_Ok _ _ _ _ _ _ Hd).
  - intros flag. rewrite collect_lookup. case_decide; [|done].
    by rewrite (Dedupe_outputs_of_same
                  (fun flag => pure_output lib flag <$> aliases)).
Qed.

(** X1.  When no rule is a file-pattern rule or a command rule, the call
    cannot fail: it returns a mapping, asks nothing of the operating system
    and leaves the world as it found it.  The entry of a requested flag is
    the deduplicated concatenation of what the literal and case rules give
    for it, also when the flag is listed more than once. *)
Theorem GenerateAliases_without_io_rules_cannot_fail
    {World : Type} (os : OS World) (lib : Lib)
    (flags : list string) (aliases : list Alias) (dir : string) (w : World) :
  Forall (fun a => rule_kind lib a ≠ KFilePattern /\ rule_kind lib a ≠ KCommand)
    aliases ->
  exists ret_,
    GenerateAliases os lib flags aliases dir w = (Ok ret_, w, [])
    /\ forall flag,
         ret_ !! flag
         = if decide (flag ∈ flags)
           then Some (Dedupe (concat (pure_output lib flag <$> aliases)))
           else None.
Proof. apply GenerateAliases_pure_rules. Qed.

Lemma GenerateAliases_without_io_rules_cannot_fail_witness :
  exists ret_,
    GenerateAliases Demo.os Demo.lib ["dark_mode"; "new_ui"; "dark_mode"]
      [Demo.rule "kebabCase"; Demo.rule "Title Case"; Demo.rule "DOTCASE"]
      "/repo" tt = (Ok ret_, tt, [])
    /\ ret_ !! "dark_mode" = Some ["dark-mode"; "dark.mode"].
Proof.
  destruct (GenerateAliases_without_io_rules_cannot_fail Demo.os Demo.lib
    ["dark_mode"; "new_ui"; "dark_mode"]
    [Demo.rule "kebabCase"; Demo.rule "Title Case"; Demo.rule "DOTCASE"]
    "/repo" tt) as (ret_ & H & Hl).
  - repeat constructor; vm_compute; discriminate.
  - exists ret_. split; [exact H|]. rewrite Hl. reflexivity.
Defined.

(** X2.  With an empty rule list the call asks nothing, cannot fail, and
    gives every requested flag an entry with no alias. *)
Theorem GenerateAliases_no_rules
    {World : Type} (os : OS World) (lib : Lib)
    (flags : list string) (dir : string) (w : World) :
  exists ret_,
    GenerateAliases os lib flags [] dir w = (Ok ret_, w, [])
    /\ forall flag,
         ret_ !! flag = if decide (flag ∈ flags) then Some [] else None.
Proof.
  destruct (GenerateAliases_pure_rules os lib flags [] dir w) as (ret_ & H & Hl);
    [constructor|]. eauto.
Qed.

(** ** The requests of a call *)

Lemma commands_run_app l1 l2 :
  commands_run (l1 ++ l2) = commands_run l1 ++ commands_run l2.
Proof. apply omap_app. Qed.

Section LogFacts.
Context {World : Type}.
Implicit Types (w : World) (l : list Event) (P : Event -> Prop).

Lemma log_Forall_bind {A B} P (m : M World A) (k : A -> M World B) w :
  Forall P (m w).2 -> (forall v w1, Forall P (k v w1).2) ->
  Forall P (bind m k w).2.
Proof.
  intros Hm Hk. unfold bind. destruct (m w) as [[[v|e|c] w1] l1]; try done.
  specialize (Hk v w1). destruct (k v w1) as [[r w2] l2]. simpl in *.
  by apply Forall_app.
Qed.

Lemma log_or_fail {A} (m : M World A) wrap w : (or_fail m wrap w).2 = (m w).2.
Proof. unfold or_fail. by destruct (m w) as [[[v|e|c] w1] l1]. Qed.

Lemma or_fail_Ok_inv {A} (m : M World A) wrap w v w1 l1 :
  or_fail m wrap w = (Ok v, w1, l1) -> m w = (Ok v, w1, l1).
Proof. unfold or_fail. by destruct (m w) as [[[v'|e|c] w2] l2]. Qed.

Lemma log_Forall_for_each {A B} P (f : A -> M World B) xs w :
  (forall x w0, x ∈ xs -> Forall P (f x w0).2) ->
  Forall P (for_each f xs w).2.
Proof.
  revert w. induction xs as [|x xs IH]; intros w H; simpl; [constructor|].
  apply log_Forall_bind; [apply H; by left|]. intros y w1.
  apply log_Forall_bind; [apply IH; intros; apply H; by right|].
  intros ys w2. constructor.
Qed.

(** The log of a loop that completes is the logs of its bodies, in order. *)
Lemma for_each_Ok_log {A B} (f : A -> M World B) (g : A -> list Event)
    xs w ys w' l :
  (forall x w0 y w1 l0, x ∈ xs -> f x w0 = (Ok y, w1, l0) -> l0 = g x) ->
  for_each f xs w = (Ok ys, w', l) ->
  l = concat (g <$> xs).
Proof.
  revert w ys w' l. induction xs as [|x xs IH]; intros w ys w' l Hg; csimpl.
  - by intros [= _ _ <-].
  - intros H. apply bind_Ok_inv in H as (y & w1 & l1 & l2 & Hf & H & ->).
    apply bind_Ok_inv in H as (ys' & w2 & l3 & l4 & Hr & H & ->).
    injection H as _ _ <-. rewrite app_nil_r.
    rewrite (Hg _ _ _ _ _ ltac:(left) Hf). f_equal.
    eapply IH; [|exact Hr]. intros. eapply Hg; [by right | done].
Qed.

End LogFacts.

Section DispatchFacts.
Context {World : Type} (os : OS World) (lib : Lib).
Implicit Types (w : World) (l : list Event) (a : Alias).

Lemma matchPatterns_silent flag fileContents patterns ret_ w :
  (matchPatterns lib flag fileContents patterns ret_ w).1.2 = w
  /\ (matchPatterns lib flag fileContents patterns ret_ w).2 = [].
Proof.
  revert ret_. induction patterns as [|p patterns IH]; intros ret_; simpl.
  - done.
  - unfold regexp_MustCompile.
    destruct (regexp_Compile lib _) as [re|e]; [|done].
    rewrite bind_ret_l. apply IH.
Qed.

Lemma concatFileContents_log dir cache paths fileContents w :
  Forall (fun ev => exists path, path ∈ paths /\ ev = EvGlob dir path)
    (concatFileContents os lib dir cache paths fileContents w).2.
Proof.
  revert fileContents w.
  induction paths as [|path paths IH]; intros fileContents w; simpl.
  - constructor.
  - apply log_Forall_bind.
    + rewrite log_or_fail, globToAbsolutePaths_log. repeat constructor.
      exists path. split; [by left | done].
    + intros ms w1. eapply Forall_impl; [apply IH|].
      intros ev (p & Hp & ->). exists p. split; [by right | done].
Qed.

Lemma concatFileContents_Ok_log dir cache paths fileContents w out w' l :
  concatFileContents os lib dir cache paths fileContents w = (Ok out, w', l) ->
  l = EvGlob dir <$> paths.
Proof.
  revert fileContents w l.
  induction paths as [|path paths IH]; intros fileContents w l; csimpl.
  - by intros [= _ _ <-].
  - intros H. apply bind_Ok_inv in H as (ms & w1 & l1 & l2 & Hg & H & ->).
    rewrite (IH _ _ _ H).
    pose proof (log_or_fail (globToAbsolutePaths os lib dir path)
      (fun _ => "could not process path glob '"
                +:+ filepath_Join lib dir path +:+ "'") w) as Hl.
    rewrite Hg, globToAbsolutePaths_log in Hl. simpl in Hl. by subst l1.
Qed.

(** Whatever the outcome, a dispatch asks only for the globs of its
    file-pattern rule or for the process of its command rule. *)
Lemma generateAlias_log a flag dir cache w :
  Forall (dispatch_request lib [flag] [a] dir)
    (generateAlias os lib a flag dir cache w).2.
Proof.
  destruct (rule_kind lib a) eqn:Hk.
  1-7,10: (unfold rule_kind in Hk; unfold generateAlias; rewrite Hk; constructor).
  - rewrite generateAlias_FilePattern by done. apply log_Forall_bind.
    + eapply Forall_impl; [apply concatFileContents_log|].
      intros ev (p & Hp & ->). split; [done|]. exists a.
      split; [by left | done].
    + intros fileContents w1.
      rewrite (proj2 (matchPatterns_silent _ _ _ _ _)). constructor.
  - rewrite generateAlias_Command by done. unfold runCommand.
    destruct (Command a) as [command|] eqn:Hc; [|constructor].
    apply log_Forall_bind.
    + rewrite log_or_fail. unfold Output.
      destruct (cmd_Output os _ w) as [r w1]. repeat constructor.
      exists a, command, flag. repeat split; try done; try by left.
      unfold command_of. f_equal.
      by destruct (strings_Split command " ") as [|name [|arg args]].
    + intros stdout w1. by destruct (json_Unmarshal lib stdout); constructor.
Qed.

(** A dispatch that returns a value has asked exactly [requests_of]. *)
Lemma generateAlias_Ok_log a flag dir cache w out w' l :
  generateAlias os lib a flag dir cache w = (Ok out, w', l) ->
  l = requests_of lib dir flag a.
Proof.
  unfold requests_of. destruct (rule_kind lib a) eqn:Hk.
  1-7,10: (unfold rule_kind in Hk; unfold generateAlias; rewrite Hk;
           by intros [= _ _ <-]).
  - rewrite generateAlias_FilePattern by done. intros H.
    apply bind_Ok_inv in H as (fc & w1 & l1 & l2 & Hc & H & ->).
    pose proof (matchPatterns_silent flag fc (Patterns a) [] w1) as [_ Hl].
    rewrite H in Hl. simpl in Hl. subst l2. rewrite app_nil_r.
    by eapply concatFileContents_Ok_log.
  - rewrite generateAlias_Command by done. unfold runCommand.
    destruct (Command a) as [command|]; [|done]. intros H.
    apply bind_Ok_inv in H as (stdout & w1 & l1 & l2 & Ho & H & ->).
    destruct (json_Unmarshal lib stdout); [|done]. injection H as _ _ <-.
    apply or_fail_Ok_inv in Ho. unfold Output in Ho.
    destruct (cmd_Output os _ w) as [r w2]. injection Ho as _ _ <-.
    unfold command_of. simpl.
    by destruct (strings_Split command " ") as [|name [|arg args]].
Qed.

Lemma dispatch_request_mono flags aliases dir flag a ev :
  flag ∈ flags -> a ∈ aliases ->
  dispatch_request lib [flag] [a] dir ev ->
  dispatch_request lib flags aliases dir ev.
Proof.
  intros Hf Ha. destruct ev as [b p|p|p|c]; simpl; try done.
  - intros [-> (a' & ->%list_elem_of_singleton & ? & ?)]. eauto.
  - intros (a' & command & flag' & ->%list_elem_of_singleton & ? & ?
            & ->%list_elem_of_singleton & ->). eauto 10.
Qed.

Lemma dispatchAll_log dir cache aliases flags w :
  Forall (dispatch_request lib flags aliases dir)
    (dispatchAll os lib dir cache aliases flags w).2.
Proof.
  unfold dispatchAll. apply log_Forall_for_each. intros flag w0 Hf.
  unfold dispatchFlag. apply log_Forall_for_each. intros a w1 Ha.
  eapply Forall_impl; [apply generateAlias_log|].
  intros ev. by apply dispatch_request_mono.
Qed.

Lemma dispatchAll_Ok_log dir cache aliases flags w outs w' l :
  dispatchAll os lib dir cache aliases flags w = (Ok outs, w', l) ->
  l = concat ((fun flag => concat (requests_of lib dir flag <$> aliases))
              <$> flags).
Proof.
  unfold dispatchAll. apply for_each_Ok_log. intros flag w0 o w1 l0 _.
  unfold dispatchFlag. apply for_each_Ok_log. intros a w2 out w3 l1 _.
  apply generateAlias_Ok_log.
Qed.

(** The log of a call is the log of the cache build, followed, when the
    cache was built, by the log of the dispatches. *)
Lemma GenerateAliases_log flags aliases dir w :
  (GenerateAliases os lib flags aliases dir w).2
  = (processFileContent os lib aliases dir w).2
    ++ match processFileContent os lib aliases dir w with
       | (Ok cache, w1, _) => (dispatchAll os lib dir cache aliases flags w1).2
       | _ => []
       end.
Proof.
  rewrite GenerateAliases_collect. unfold GenerateAliases_spec, bind.
  destruct (processFileContent os lib aliases dir w) as [[[cache|e|c] w1] l1];
    simpl; try by rewrite app_nil_r.
  destruct (dispatchAll os lib dir cache aliases flags w1)
    as [[[outs|e|c] w2] l2]; simpl; by rewrite ?app_nil_r.
Qed.

End DispatchFacts.

Section CallFacts.
Context {World : Type} (os : OS World) (lib : Lib).
Implicit Types (w : World) (l : list Event) (a : Alias).

Lemma expandGlobs_log aliasId dir globs paths w :
  Forall (fun ev => exists glob, glob ∈ globs /\ ev = EvGlob dir glob)
    (expandGlobs os lib aliasId dir globs paths w).2.
Proof.
  revert paths w. induction globs as [|glob globs IH]; intros paths w; simpl.
  - constructor.
  - apply log_Forall_bind.
    + rewrite log_or_fail, globToAbsolutePaths_log. repeat constructor.
      exists glob. split; [by left | done].
    + intros ms w1. eapply Forall_impl; [apply IH|].
      intros ev (g & Hg & ->). exists g. split; [by right | done].
Qed.

Lemma readPaths_log aliasId paths cache w :
  Forall (fun ev => match ev with
                    | EvFileExists _ | EvReadFile _ => True
                    | _ => False
                    end)
    (readPaths os aliasId paths cache w).2.
Proof.
  revert cache w. induction paths as [|path paths IH]; intros cache w; simpl.
  - constructor.
  - apply log_Forall_bind; [|auto]. unfold readPath.
    destruct (cache !! path); [constructor|].
    unfold bind, FileExists, or_fail, ReadFile.
    destruct (validation_FileExists os path w) as [[|] w1]; simpl.
    + destruct (ioutil_ReadFile os path w1) as [[data|e] w2]; simpl;
        by repeat constructor.
    + by repeat constructor.
Qed.

Lemma cache_request_mono aliases a dir ev :
  cache_request lib aliases dir ev -> cache_request lib (a :: aliases) dir ev.
Proof.
  destruct ev as [b p|p|p|c]; simpl; try done.
  intros [-> (a' & ? & ? & ?)]. split; [done|]. exists a'.
  split; [by right | done].
Qed.

Lemma processRules_log dir idx aliases cache w :
  Forall (cache_request lib aliases dir)
    (processRules os lib dir idx aliases cache w).2.
Proof.
  revert idx cache w.
  induction aliases as [|a aliases IH]; intros idx cache w; simpl.
  - constructor.
  - assert (forall idx cache w,
      Forall (cache_request lib (a :: aliases) dir)
        (processRules os lib dir idx aliases cache w).2) as IH'.
    { intros. eapply Forall_impl; [apply IH|]. apply cache_request_mono. }
    destruct (switch_kind lib (Canonical lib (Type_ a))) eqn:Hk; try apply IH'.
    apply log_Forall_bind.
    + eapply Forall_impl; [apply expandGlobs_log|].
      intros ev (g & Hg & ->). split; [done|]. exists a.
      split; [by left | done].
    + intros paths w1. apply log_Forall_bind; [|auto].
      eapply Forall_impl; [apply readPaths_log|].
      by intros [b p|p|p|c].
Qed.

Lemma dispatch_requests_touch_no_file flags aliases dir l :
  Forall (dispatch_request lib flags aliases dir) l ->
  files_read l = [] /\ files_checked l = [].
Proof.
  induction 1 as [|ev l Hev _ [IH1 IH2]]; [done|].
  by destruct ev as [b p|p|p|c].
Qed.

Lemma cache_requests_run_no_command aliases dir l :
  Forall (cache_request lib aliases dir) l -> commands_run l = [].
Proof.
  induction 1 as [|ev l Hev _ IH]; [done|]. by destruct ev as [b p|p|p|c].
Qed.

End CallFacts.

(** X3.  Over a whole call, whatever the number of flags and however the
    call ends, the files read and the files checked are those of the cache
    build: the dispatches never ask for a file.  So no path is read twice
    or checked twice in a call, and the reads are among the checks, in the
    same order. *)
Theorem GenerateAliases_touches_files_only_in_the_cache_build
    {World : Type} (os : OS World) (lib : Lib)
    (flags : list string) (aliases : list Alias) (dir : string) (w : World) :
  files_read (GenerateAliases os lib flags aliases dir w).2
    = files_read (processFileContent os lib aliases dir w).2
  /\ files_checked (GenerateAliases os lib flags aliases dir w).2
     = files_checked (processFileContent os lib aliases dir w).2
  /\ NoDup (files_read (GenerateAliases os lib flags aliases dir w).2)
  /\ NoDup (files_checked (GenerateAliases os lib flags aliases dir w).2)
  /\ files_read (GenerateAliases os lib flags aliases dir w).2
     `sublist_of` files_checked (GenerateAliases os lib flags aliases dir w).2.
Proof.
  assert (files_read (GenerateAliases os lib flags aliases dir w).2
            = files_read (processFileContent os lib aliases dir w).2
          /\ files_checked (GenerateAliases os lib flags aliases dir w).2
             = files_checked (processFileContent os lib aliases dir w).2)
    as [-> ->].
  { rewrite GenerateAliases_log, files_read_app, files_checked_app.
    destruct (processFileContent os lib aliases dir w) as [[[cache|e|c] w1] l1];
      simpl; rewrite ?app_nil_r; try done.
    destruct (dispatch_requests_touch_no_file lib flags aliases dir _
                (dispatchAll_log os lib dir cache aliases flags w1)) as [-> ->].
    by rewrite !app_nil_r. }
  destruct (processRules_fresh os lib dir 0 aliases ∅ w) as (Hnd & _ & Hsub & _).
  unfold processFileContent. repeat split; try done.
  by eapply sublist_NoDup.
Qed.


(** X5.  Every glob a call expands, in the cache build or in a dispatch and
    however the call ends, is a path pattern of a file-pattern rule of the
    configuration, expanded in the base directory. *)
Theorem GenerateAliases_expands_only_configured_globs
    {World : Type} (os : OS World) (lib : Lib)
    (flags : list string) (aliases : list Alias) (dir : string) (w : World) :
  Forall
    (fun g =>
       g.1 = dir
       /\ exists a, a ∈ aliases /\ rule_kind lib a = KFilePattern
                    /\ g.2 ∈ Paths a)
    (globs_requested (GenerateAliases os lib flags aliases dir w).2).
Proof.
  rewrite GenerateAliases_log. unfold globs_requested. rewrite omap_app.
  apply Forall_app. split.
  - pose proof (processRules_log os lib dir 0 aliases ∅ w) as H.
    fold (processFileContent os lib aliases dir) in H.
    induction H as [|ev l Hev _ IH]; [constructor|].
    destruct ev as [b p|p|p|c]; simpl; try done. by constructor.
  - destruct (processFileContent os lib aliases dir w) as [[[cache|e|c] w1] l1];
      try constructor.
    pose proof (dispatchAll_log os lib dir cache aliases flags w1) as H.
    induction H as [|ev l Hev _ IH]; [constructor|].
    destruct ev as [b p|p|p|c]; simpl; try done. by constructor.
Qed.

Section SuccessFacts.
Context {World : Type} (os : OS World) (lib : Lib).
Implicit Types (w : World) (l : list Event) (a : Alias).

Lemma commands_run_requests_of dir flag a :
  (rule_kind lib a = KCommand -> is_Some (Command a)) ->
  length (commands_run (requests_of lib dir flag a))
  = if is_command_rule lib a then 1 else 0.
Proof.
  unfold requests_of, is_command_rule. intros H.
  destruct (rule_kind lib a); try done.
  - induction (Paths a); [done|]. by csimpl.
  - by destruct (H eq_refl) as [command ->].
Qed.

Lemma commands_run_dispatch_flag dir flag aliases :
  (forall a, a ∈ aliases -> rule_kind lib a = KCommand -> is_Some (Command a)) ->
  length (commands_run (concat (requests_of lib dir flag <$> aliases)))
  = length (filter (fun a => is_command_rule lib a = true) aliases).
Proof.
  induction aliases as [|a aliases IH]; intros H; csimpl; [done|].
  rewrite commands_run_app, length_app, IH, commands_run_requests_of.
  - destruct (is_command_rule lib a) eqn:E.
    + by rewrite filter_cons_True.
    + rewrite filter_cons_False; [done|]. by rewrite E.
  - intros. apply H; [by left | done].
  - intros. apply H; [by right | done].
Qed.

End SuccessFacts.

(** X6.  When a call returns a mapping, what it asked after the cache build
    is fixed by its arguments: flag by flag and, for each flag, rule by
    rule, the globs of every file-pattern rule once more and one process
    for every command rule.  So the number of processes started is the
    number of flags times the number of command rules, and every
    file-pattern rule has its globs expanded once more for every flag. *)
Theorem GenerateAliases_requests_of_a_successful_call
    {World : Type} (os : OS World) (lib : Lib)
    (flags : list string) (aliases : list Alias) (dir : string)
    (w w' : World) (ret_ : gmap string (list string)) (l : list Event) :
  GenerateAliases os lib flags aliases dir w = (Ok ret_, w', l) ->
  l = (processFileContent os lib aliases dir w).2
      ++ concat ((fun flag => concat (requests_of lib dir flag <$> aliases))
                 <$> flags)
  /\ length (commands_run l)
     = length flags
       * length (filter (fun a => is_command_rule lib a = true) aliases).
Proof.
  intros H.
  apply GenerateAliases_Ok_inv in H
    as (cache & w1 & l1 & outs & l2 & Hc & Hd & _ & ->).
  pose proof (dispatchAll_Ok_log os lib _ _ _ _ _ _ _ _ Hd) as ->.
  rewrite Hc. split; [done|]. rewrite commands_run_app.
  pose proof (cache_requests_run_no_command lib aliases dir _
                (processRules_log os lib dir 0 aliases ∅ w)) as Hno.
  fold (processFileContent os lib aliases dir) in Hno. rewrite Hc in Hno.
  simpl in Hno. rewrite Hno. simpl.
  destruct flags as [|flag0 flags0]; [done|].
  assert (forall a, a ∈ aliases -> rule_kind lib a = KCommand ->
                    is_Some (Command a)) as Hsome.
  { intros a Ha Hk.
    destruct (for_each_Ok_elem _ _ _ _ _ _ flag0 Hd ltac:(left))
      as (w0 & o & w2 & l0 & Hf).
    destruct (for_each_Ok_elem _ _ _ _ _ _ a Hf Ha) as (w3 & y & w4 & l3 & Hy).
    rewrite generateAlias_Command in Hy by done. unfold runCommand in Hy.
    by destruct (Command a). }
  generalize (flag0 :: flags0). clear -Hsome. intros flags.
  induction flags as [|flag flags IH]; csimpl; [done|].
  by rewrite commands_run_app, length_app, IH, commands_run_dispatch_flag.
Qed.

Lemma GenerateAliases_requests_of_a_successful_call_witness :
  exists ret_ l,
    GenerateAliases Demo.os Demo.lib ["dark_mode"; "new_ui"; "beta"]
      [Demo.helper (Some "tr a-z A-Z"); Demo.properties;
       Demo.helper (Some "tr")] "/repo" tt = (Ok ret_, tt, l)
    /\ length (commands_run l) = 6.
Proof.
  eexists _, _. split; [vm_compute; reflexivity|].
  refine (proj2 (GenerateAliases_requests_of_a_successful_call Demo.os Demo.lib
    ["dark_mode"; "new_ui"; "beta"]
    [Demo.helper (Some "tr a-z A-Z"); Demo.properties; Demo.helper (Some "tr")]
    "/repo" tt tt _ _ _)).
  vm_compute. reflexivity.
Defined.

(** ** Command rules *)

(** X7.  A timeout of zero or less is no timeout: the rule behaves exactly
    as the same rule without a timeout, whatever its type. *)
Theorem nonpositive_timeout_is_no_timeout
    {World : Type} (os : OS World) (lib : Lib)
    (a : Alias) (t : Z) (flag dir : string) (cache : gmap string bytes)
    (w : World) :
  Timeout a = Some t ->
  (t <= 0)%Z ->
  generateAlias os lib a flag dir cache w
  = generateAlias os lib (without_timeout a) flag dir cache w.
Proof.
  intros Ht Hle. unfold generateAlias, runCommand, commandDeadline. simpl.
  rewrite Ht. by rewrite (proj2 (Z.ltb_ge 0 t) Hle).
Qed.

Lemma nonpositive_timeout_is_no_timeout_witness :
  generateAlias Demo.os Demo.lib Demo2.impatient "dark_mode" "/repo" ∅ tt
  = (Ok ["dark_mode"], tt,
     [EvOutput {| cmd_Name := "tr"; cmd_Args := ["a-z"];
                  cmd_Stdin := "dark_mode"; cmd_Dir := "/repo";
                  cmd_Deadline := None |}]).
Proof.
  rewrite (nonpositive_timeout_is_no_timeout Demo.os Demo.lib Demo2.impatient
             (-3)%Z "dark_mode" "/repo" ∅ tt eq_refl ltac:(discriminate)).
  vm_compute. reflexivity.
Defined.





(** ** Errors of the cache build *)

Section CacheErrors.
Context {World : Type} (os : OS World) (lib : Lib).
Implicit Types (w : World) (l : list Event) (a : Alias).

Lemma processRules_app dir idx pre post cache w :
  processRules os lib dir idx (pre ++ post) cache w
  = (let* cache' := processRules os lib dir idx pre cache in
     processRules os lib dir (idx + length pre) post cache') w.
Proof.
  revert idx cache w. induction pre as [|a pre IH]; intros idx cache w; simpl.
  - by rewrite bind_ret_l, Nat.add_0_r.
  - replace (idx + S (length pre)) with (S idx + length pre) by lia.
    destruct (switch_kind lib (Canonical lib (Type_ a))); try apply IH.
    rewrite bind_assoc. apply bind_ext. intros paths w1.
    rewrite bind_assoc. apply bind_ext. intros cache1 w2. apply IH.
Qed.

Lemma readPaths_app aliasId ps1 ps2 cache w :
  readPaths os aliasId (ps1 ++ ps2) cache w
  = (let* cache' := readPaths os aliasId ps1 cache in
     readPaths os aliasId ps2 cache') w.
Proof.
  revert cache w. induction ps1 as [|p ps1 IH]; intros cache w; simpl.
  - by rewrite bind_ret_l.
  - rewrite bind_assoc. apply bind_ext. intros cache1 w1. apply IH.
Qed.

(** The loop of lines 147-154 collects what the globs match, in order. *)
Lemma expandGlobs_Ok aliasId dir globs paths w mss w1 l1 :
  for_each (globToAbsolutePaths os lib dir) globs w = (Ok mss, w1, l1) ->
  expandGlobs os lib aliasId dir globs paths w
  = (Ok (paths ++ concat mss), w1, l1).
Proof.
  revert paths w mss l1.
  induction globs as [|glob globs IH]; intros paths w mss l1; simpl.
  - intros [= <- <- <-]. unfold ret. by rewrite app_nil_r.
  - intros H. apply bind_Ok_inv in H as (ms & w2 & l2 & l3 & Hg & H & ->).
    apply bind_Ok_inv in H as (mss' & w3 & l4 & l5 & Hr & H & ->).
    injection H as <- <- <-.
    rewrite (bind_Ok _ _ _ _ _ _ (or_fail_Ok _ _ _ _ _ _ Hg)).
    rewrite (IH _ _ _ _ Hr). simpl. by rewrite app_nil_r, app_assoc.
Qed.

Lemma globToAbsolutePaths_failed basepath pattern w w' :
  doublestar_Glob os basepath pattern w = (None, w') ->
  globToAbsolutePaths os lib basepath pattern w
  = (Err ("could not process path glob '"
          +:+ filepath_Join lib basepath pattern +:+ "'"),
     w', [EvGlob basepath pattern]).
Proof. intros H. unfold globToAbsolutePaths, bind, Glob. by rewrite H. Qed.

Lemma expandGlobs_failed aliasId dir gs1 g gs2 paths w mss w1 l1 w2 :
  for_each (globToAbsolutePaths os lib dir) gs1 w = (Ok mss, w1, l1) ->
  doublestar_Glob os dir g w1 = (None, w2) ->
  expandGlobs os lib aliasId dir (gs1 ++ g :: gs2) paths w
  = (Err ("filepattern '" +:+ aliasId +:+ "': could not process path glob '"
          +:+ filepath_Join lib dir g +:+ "'"),
     w2, l1 ++ [EvGlob dir g]).
Proof.
  revert paths w mss l1.
  induction gs1 as [|glob gs1 IH]; intros paths w mss l1; simpl.
  - intros [= <- <- <-] Hg. unfold bind, or_fail.
    by rewrite (globToAbsolutePaths_failed _ _ _ _ Hg).
  - intros H Hg. apply bind_Ok_inv in H as (ms & w3 & l2 & l3 & Hm & H & ->).
    apply bind_Ok_inv in H as (mss' & w4 & l4 & l5 & Hr & H & ->).
    injection H as <- <- <-.
    rewrite (bind_Ok _ _ _ _ _ _ (or_fail_Ok _ _ _ _ _ _ Hm)).
    rewrite (IH _ _ _ _ Hr Hg). by rewrite app_nil_r, app_assoc.
Qed.

(** The build of [pre ++ a :: post] after the build of [pre] returned. *)
Lemma processFileContent_next pre a post dir w cache w1 l1 :
  processFileContent os lib pre dir w = (Ok cache, w1, l1) ->
  rule_kind lib a = KFilePattern ->
  processFileContent os lib (pre ++ a :: post) dir w
  = (let '(r, w', l) :=
       (let* paths :=
          expandGlobs os lib (aliasId_of (length pre) a) dir (Paths a) [] in
        let* cache' :=
          readPaths os (aliasId_of (length pre) a) (Dedupe paths) cache in
        processRules os lib dir (S (length pre)) post cache') w1 in
     (r, w', l1 ++ l)).
Proof.
  unfold processFileContent, rule_kind. intros Hpre Hk.
  rewrite processRules_app, (bind_Ok _ _ _ _ _ _ Hpre). simpl. by rewrite Hk.
Qed.

End CacheErrors.

(** X9.  A glob that cannot be expanded ends the cache build with an error
    that names the rule and the glob: the rule by its name or, when it has
    none, by its position among all the rules, file-pattern or not.  The
    globs after it are not expanded and no file of the rule is looked at. *)
Theorem cache_build_glob_error_names_the_rule
    {World : Type} (os : OS World) (lib : Lib)
    (pre post : list Alias) (a : Alias) (dir : string)
    (w w1 w2 w3 : World) (cache : gmap string bytes) (l1 l2 : list Event)
    (gs1 gs2 : list string) (g : string) (mss : list (list string)) :
  processFileContent os lib pre dir w = (Ok cache, w1, l1) ->
  rule_kind lib a = KFilePattern ->
  Paths a = gs1 ++ g :: gs2 ->
  for_each (globToAbsolutePaths os lib dir) gs1 w1 = (Ok mss, w2, l2) ->
  doublestar_Glob os dir g w2 = (None, w3) ->
  processFileContent os lib (pre ++ a :: post) dir w
  = (Err ("filepattern '"
          +:+ (if String.eqb (Name a) "" then strconv_Itoa (length pre)
               else Name a)
          +:+ "': could not process path glob '"
          +:+ filepath_Join lib dir g +:+ "'"),
     w3, l1 ++ l2 ++ [EvGlob dir g]).
Proof.
  intros Hpre Hk Hp Hgs Hg.
  rewrite (processFileContent_next os lib _ _ _ _ _ _ _ _ Hpre Hk), Hp.
  by rewrite (bind_failed _ _ _ (FErr _) _ _
                (expandGlobs_failed os lib _ _ _ _ _ _ _ _ _ _ _ Hgs Hg)).
Qed.

Lemma cache_build_glob_error_names_the_rule_witness :
  processFileContent Demo2.os Demo.lib
    [Demo.rule "kebabcase"; Demo.helper None; Demo2.malformed; Demo.properties]
    "/repo" tt
  = (Err "filepattern '2': could not process path glob '/repo/['", tt,
     [EvGlob "/repo" "*.properties"; EvGlob "/repo" "["]).
Proof.
  exact (cache_build_glob_error_names_the_rule Demo2.os Demo.lib
    [Demo.rule "kebabcase"; Demo.helper None] [Demo.properties]
    Demo2.malformed "/repo" tt tt tt tt ∅ [] [EvGlob "/repo" "*.properties"]
    ["*.properties"] [] "["
    [["/repo/a.properties"; "/repo/ghost.properties"]]
    eq_refl eq_refl eq_refl eq_refl eq_refl).
Defined.

(** X10.  A matched path that is not in the cache and does not exist ends
    the cache build with an error that names the rule and the path; the
    path is checked and never read, and no later path or rule is looked
    at. *)
Theorem cache_build_missing_file_error
    {World : Type} (os : OS World) (lib : Lib)
    (pre post : list Alias) (a : Alias) (dir : string)
    (w w1 w2 w3 w4 : World) (cache cache' : gmap string bytes)
    (l1 l2 l3 : list Event) (mss : list (list string))
    (ps1 ps2 : list string) (path : string) :
  processFileContent os lib pre dir w = (Ok cache, w1, l1) ->
  rule_kind lib a = KFilePattern ->
  for_each (globToAbsolutePaths os lib dir) (Paths a) w1 = (Ok mss, w2, l2) ->
  Dedupe (concat mss) = ps1 ++ path :: ps2 ->
  readPaths os (aliasId_of (length pre) a) ps1 cache w2 = (Ok cache', w3, l3) ->
  cache' !! path = None ->
  validation_FileExists os path w3 = (false, w4) ->
  processFileContent os lib (pre ++ a :: post) dir w
  = (Err ("filepattern '"
          +:+ (if String.eqb (Name a) "" then strconv_Itoa (length pre)
               else Name a)
          +:+ "': could not find file at path '" +:+ path +:+ "'"),
     w4, l1 ++ l2 ++ l3 ++ [EvFileExists path]).
Proof.
  intros Hpre Hk Hgs Hd Hps Hnone Hex.
  rewrite (processFileContent_next os lib _ _ _ _ _ _ _ _ Hpre Hk).
  rewrite (bind_Ok _ _ _ _ _ _ (expandGlobs_Ok os lib _ _ _ [] _ _ _ _ Hgs)).
  simpl. rewrite Hd.
  assert (readPaths os (aliasId_of (length pre) a) (ps1 ++ path :: ps2) cache w2
          = (Err ("filepattern '" +:+ aliasId_of (length pre) a
                  +:+ "': could not find file at path '" +:+ path +:+ "'"),
             w4, l3 ++ [EvFileExists path])) as Hr.
  { rewrite readPaths_app, (bind_Ok _ _ _ _ _ _ Hps). simpl.
    unfold readPath. rewrite Hnone. unfold bind at 1 2, FileExists.
    by rewrite Hex. }
  by rewrite (bind_failed _ _ _ (FErr _) _ _ Hr).
Qed.

Lemma cache_build_missing_file_error_witness :
  processFileContent Demo2.os Demo.lib [Demo.helper None; Demo.properties]
    "/repo" tt
  = (Err "filepattern 'props': could not find file at path '/repo/ghost.properties'",
     tt,
     [EvGlob "/repo" "*.properties"; EvGlob "/repo" "a.*";
      EvFileExists "/repo/a.properties"; EvReadFile "/repo/a.properties";
      EvFileExists "/repo/ghost.properties"]).
Proof.
  refine (cache_build_missing_file_error Demo2.os Demo.lib
    [Demo.helper None] [] Demo.properties "/repo" tt tt tt tt tt ∅ _
    [] [EvGlob "/repo" "*.properties"; EvGlob "/repo" "a.*"]
    [EvFileExists "/repo/a.properties"; EvReadFile "/repo/a.properties"]
    [["/repo/a.properties"; "/repo/ghost.properties"]; []]
    ["/repo/a.properties"] [] "/repo/ghost.properties"
    eq_refl eq_refl eq_refl eq_refl _ _ eq_refl).
  - vm_compute. reflexivity.
  - vm_compute. reflexivity.
Defined.

(** ** What the cache holds *)

Section CacheContent.
Context {World : Type} (os : OS World) (lib : Lib).
Implicit Types (w : World) (l : list Event) (cache : gmap string bytes).

Lemma readPath_content aliasId cache path w after w' l :
  readPath os aliasId cache path w = (Ok after, w', l) ->
  (forall p d, cache !! p = Some d -> after !! p = Some d)
  /\ (forall p d, after !! p = Some d ->
                  cache !! p = Some d \/ read_answer os p d)
  /\ is_Some (after !! path).
Proof.
  unfold readPath. destruct (cache !! path) as [data|] eqn:E.
  - intros [= <- _ _]. rewrite E. eauto.
  - unfold bind, FileExists, or_fail, ReadFile.
    destruct (validation_FileExists os path w) as [[|] w1]; simpl; [|done].
    destruct (ioutil_ReadFile os path w1) as [[data|e] w2] eqn:Er; simpl;
      [|done].
    intros [= <- _ _]. split; [|split].
    + intros p d Hp. rewrite lookup_insert_ne; [done|]. congruence.
    + intros p d. destruct (decide (path = p)) as [<-|Hne].
      * rewrite lookup_insert_eq. intros [= <-]. right. by exists w1, w2.
      * rewrite lookup_insert_ne by done. auto.
    + rewrite lookup_insert_eq. by eexists.
Qed.

Lemma readPaths_content aliasId paths cache w after w' l :
  readPaths os aliasId paths cache w = (Ok after, w', l) ->
  (forall p d, cache !! p = Some d -> after !! p = Some d)
  /\ (forall p d, after !! p = Some d ->
                  cache !! p = Some d \/ read_answer os p d)
  /\ (forall p, p ∈ paths -> is_Some (after !! p)).
Proof.
  revert cache w l. induction paths as [|path paths IH]; intros cache w l; simpl.
  - intros [= <- _ _]. split; [done|]. split; [auto|].
    by intros ? ?%elem_of_nil.
  - intros H. apply bind_Ok_inv in H as (c1 & w1 & l1 & l2 & H1 & H2 & _).
    apply readPath_content in H1 as (Hk1 & Hn1 & Hp1).
    apply IH in H2 as (Hk2 & Hn2 & Hp2). split; [auto|]. split.
    + intros p d Hp. destruct (Hn2 _ _ Hp) as [?|?]; auto.
    + intros p [->|?]%elem_of_cons; [|auto].
      destruct Hp1 as [d Hd]. exists d. auto.
Qed.

End CacheContent.

Section StableGlobs.
Context {World : Type} (os : OS World) (lib : Lib).
Context (answers : string -> string -> option (list string)).
Context (Hstable : glob_stable os answers).
Implicit Types (w : World) (l : list Event) (cache : gmap string bytes).

Lemma globToAbsolutePaths_stable dir glob w :
  (globToAbsolutePaths os lib dir glob w).1.1
  = match answers dir glob with
    | Some matches =>
        Ok ((fun match_ => strings_Join [dir; match_] "/") <$> matches)
    | None =>
        Err ("could not process path glob '"
             +:+ filepath_Join lib dir glob +:+ "'")
    end.
Proof.
  unfold globToAbsolutePaths, bind, Glob.
  rewrite <- (Hstable dir glob w).
  by destruct (doublestar_Glob os dir glob w) as [[matches|] w1].
Qed.

(** What [expandGlobs] returns holds what every glob matches. *)
Lemma expandGlobs_holds_matches aliasId dir globs paths w paths' w' l :
  expandGlobs os lib aliasId dir globs paths w = (Ok paths', w', l) ->
  (forall p, p ∈ paths -> p ∈ paths')
  /\ forall glob, glob ∈ globs ->
       exists matches,
         answers dir glob = Some matches
         /\ forall match_, match_ ∈ matches ->
              strings_Join [dir; match_] "/" ∈ paths'.
Proof.
  revert paths w l. induction globs as [|g globs IH]; intros paths w l; simpl.
  - intros [= <- _ _]. split; [done|]. by intros ? ?%elem_of_nil.
  - intros H. apply bind_Ok_inv in H as (ms & w1 & l1 & l2 & Hg & H & _).
    apply or_fail_Ok_inv in Hg.
    pose proof (globToAbsolutePaths_stable dir g w) as Hs.
    rewrite Hg in Hs. simpl in Hs.
    destruct (answers dir g) as [matches|] eqn:Ha; [|done].
    injection Hs as ->. apply IH in H as [Hin Hglobs]. split.
    + intros p Hp. apply Hin, elem_of_app. by left.
    + intros glob [->|Hglob]%elem_of_cons; [|auto].
      exists matches. split; [done|]. intros m Hm.
      apply Hin, elem_of_app. right.
      by apply (list_elem_of_fmap_2
                  (fun match_ => strings_Join [dir; match_] "/")).
Qed.

(** Globs that have answers expand, and to what the answers say. *)
Lemma for_each_glob_stable dir globs w :
  (forall glob, glob ∈ globs -> is_Some (answers dir glob)) ->
  exists mss w' l,
    for_each (globToAbsolutePaths os lib dir) globs w = (Ok mss, w', l)
    /\ forall p, p ∈ concat mss ->
         exists glob matches match_,
           glob ∈ globs /\ answers dir glob = Some matches
           /\ match_ ∈ matches /\ p = strings_Join [dir; match_] "/".
Proof.
  revert w. induction globs as [|g globs IH]; intros w H; simpl.
  - exists [], w, []. split; [done|]. by intros ? ?%elem_of_nil.
  - destruct (H g ltac:(left)) as [matches Ha].
    pose proof (globToAbsolutePaths_stable dir g w) as Hs. rewrite Ha in Hs.
    destruct (globToAbsolutePaths os lib dir g w) as [[r w1] l1] eqn:Hg.
    simpl in Hs. subst r.
    destruct (IH w1) as (mss & w2 & l2 & Hr & Hin).
    { intros. apply H. by right. }
    eexists _, _, _. split.
    + rewrite (bind_Ok _ _ _ _ _ _ Hg), (bind_Ok _ _ _ _ _ _ Hr). reflexivity.
    + simpl. intros p [Hp|Hp]%elem_of_app.
      * apply list_elem_of_fmap in Hp as (m & -> & Hm).
        exists g, matches, m. repeat split; try done. by left.
      * destruct (Hin p Hp) as (g' & ms' & m' & ? & ? & ? & ?).
        exists g', ms', m'. repeat split; try done. by right.
Qed.

(** Once the build of some rules returns, the cache holds every path that
    the globs of their file-pattern rules match. *)
Lemma processRules_holds_matches dir idx aliases cache w after w' l :
  processRules os lib dir idx aliases cache w = (Ok after, w', l) ->
  (forall p, is_Some (cache !! p) -> is_Some (after !! p))
  /\ forall a glob,
       a ∈ aliases -> rule_kind lib a = KFilePattern -> glob ∈ Paths a ->
       exists matches,
         answers dir glob = Some matches
         /\ forall match_, match_ ∈ matches ->
              is_Some (after !! strings_Join [dir; match_] "/").
Proof.
  revert idx cache w l.
  induction aliases as [|a aliases IH]; intros idx cache w l; simpl.
  - intros [= <- _ _]. split; [done|]. by intros ? ? ?%elem_of_nil.
  - destruct (switch_kind lib (Canonical lib (Type_ a))) eqn:Hk.
    1-7,9,10: (intros H; apply IH in H as [Hmono Hall]; split; [done|];
               intros a' glob [->|?]%elem_of_cons Hk'; [|by eauto];
               unfold rule_kind in Hk'; congruence).
    intros H. apply bind_Ok_inv in H as (paths & w1 & l1 & l2 & He & H & _).
    apply bind_Ok_inv in H as (c1 & w2 & l3 & l4 & Hr & H & _).
    apply expandGlobs_holds_matches in He as [_ Hglobs].
    apply readPaths_content in Hr as (Hkeep & _ & Hread).
    apply IH in H as [Hmono Hall]. split.
    + intros p [d Hd]. apply Hmono. exists d. auto.
    + intros a' glob [->|Ha']%elem_of_cons Hk' Hglob; [|by eauto].
      destruct (Hglobs _ Hglob) as (matches & Hm & Hin).
      exists matches. split; [done|]. intros m Hmm.
      apply Hmono, Hread, elem_of_Dedupe. by apply Hin.
Qed.

End StableGlobs.

Lemma matchPatterns_no_error {World : Type} (lib : Lib) flag fileContents
    patterns ret_ (w : World) e :
  (matchPatterns lib flag fileContents patterns ret_ w).1.1 ≠ Err e.
Proof.
  revert ret_. induction patterns as [|p patterns IH]; intros ret_; simpl.
  - done.
  - unfold regexp_MustCompile.
    destruct (regexp_Compile lib _) as [re|e']; [|done].
    rewrite bind_ret_l. apply IH.
Qed.

(** X11.  Whatever the cache holds under a path is something
    [ioutil.ReadFile] answered for that very path: the build never stores
    the content of one file under the path of another, and stores nothing
    it did not read. *)
Theorem cache_holds_what_was_read
    {World : Type} (os : OS World) (lib : Lib)
    (aliases : list Alias) (dir : string) (w w' : World)
    (cache : gmap string bytes) (l : list Event) (path : string)
    (data : bytes) :
  processFileContent os lib aliases dir w = (Ok cache, w', l) ->
  cache !! path = Some data ->
  exists w0 w1, ioutil_ReadFile os path w0 = (inl data, w1).
Proof.
  unfold processFileContent. intros H.
  assert (forall p d, cache !! p = Some d ->
                      (∅ : gmap string bytes) !! p = Some d
                      \/ read_answer os p d) as Hall.
  { revert H. generalize 0 (∅ : gmap string bytes). revert w l.
    induction aliases as [|a aliases' IH]; intros w l idx before; simpl.
    - intros [= <- _ _]. auto.
    - destruct (switch_kind lib (Canonical lib (Type_ a))); try apply IH.
      intros H. apply bind_Ok_inv in H as (paths & w1 & l1 & l2 & _ & H & _).
      apply bind_Ok_inv in H as (c1 & w2 & l3 & l4 & Hr & H & _).
      apply readPaths_content in Hr as (_ & Hnew & _).
      intros p d Hp. destruct (IH _ _ _ _ H p d Hp) as [H1|?]; auto. }
  intros Hp. destruct (Hall _ _ Hp) as [Hempty|?]; [|done].
  by rewrite lookup_empty in Hempty.
Qed.

Lemma cache_holds_what_was_read_witness :
  exists cache l,
    processFileContent Demo.os Demo.lib [Demo.properties] "/repo" tt
      = (Ok cache, tt, l)
    /\ cache !! "/repo/b.properties" = Some (list_byte_of_string "ui=newUi;")
    /\ exists w0 w1,
         ioutil_ReadFile Demo.os "/repo/b.properties" w0
         = (inl (list_byte_of_string "ui=newUi;"), w1).
Proof.
  eexists _, _. split; [vm_compute; reflexivity|].
  split; [vm_compute; reflexivity|].
  eapply (cache_holds_what_was_read Demo.os Demo.lib [Demo.properties] "/repo"
            tt tt _ _ "/repo/b.properties").
  - vm_compute. reflexivity.
  - vm_compute. reflexivity.
Defined.

(** X12.  In a world where globs always expand to the same matches, a
    cache that was built is complete: for every file-pattern rule of the
    configuration the globs expand again at any later moment, every path
    they match is in the cache, and the dispatch of the rule returns no
    error (it returns aliases, or panics on an invalid template). *)
Theorem cache_is_complete_when_globs_are_stable
    {World : Type} (os : OS World) (lib : Lib)
    (answers : string -> string -> option (list string))
    (aliases : list Alias) (dir : string) (w w1 : World)
    (cache : gmap string bytes) (l1 : list Event) (a : Alias) :
  glob_stable os answers ->
  processFileContent os lib aliases dir w = (Ok cache, w1, l1) ->
  a ∈ aliases ->
  rule_kind lib a = KFilePattern ->
  forall (flag : string) (w2 : World),
    (exists mss w3 l3,
       for_each (globToAbsolutePaths os lib dir) (Paths a) w2 = (Ok mss, w3, l3)
       /\ forall path, path ∈ concat mss -> is_Some (cache !! path))
    /\ forall e, (generateAlias os lib a flag dir cache w2).1.1 ≠ Err e.
Proof.
  intros Hstable Hc Ha Hk flag w2.
  destruct (processRules_holds_matches os lib answers Hstable _ _ _ _ _ _ _ _ Hc)
    as [_ Hall].
  destruct (for_each_glob_stable os lib answers Hstable dir (Paths a) w2)
    as (mss & w3 & l3 & Hg & Hin).
  { intros glob Hglob. destruct (Hall a glob Ha Hk Hglob) as (ms & -> & _).
    by eexists. }
  split.
  - exists mss, w3, l3. split; [done|]. intros path Hp.
    destruct (Hin path Hp) as (glob & ms & m & Hglob & Hans & Hm & ->).
    destruct (Hall a glob Ha Hk Hglob) as (ms' & Hans' & Hcached).
    rewrite Hans in Hans'. injection Hans' as <-. auto.
  - intros e. rewrite generateAlias_FilePattern by done.
    rewrite (bind_Ok _ _ _ _ _ _
               (concatFileContents_cached os lib dir cache _ [] _ _ _ _ Hg)).
    pose proof (matchPatterns_no_error lib flag
      ([] ++ cached_contents cache (concat mss)) (Patterns a) [] w3 e) as Hne.
    by destruct (matchPatterns lib flag _ (Patterns a) [] w3) as [[r w4] l4].
Qed.

Lemma cache_is_complete_when_globs_are_stable_witness :
  exists cache l,
    processFileContent Demo.os Demo.lib [Demo.helper None; Demo.properties]
      "/repo" tt = (Ok cache, tt, l)
    /\ forall e,
         (generateAlias Demo.os Demo.lib Demo.properties "new_ui" "/repo"
            cache tt).1.1 ≠ Err e.
Proof.
  eexists _, _. split; [vm_compute; reflexivity|].
  refine (proj2 (cache_is_complete_when_globs_are_stable Demo.os Demo.lib
    (fun _ => Demo.glob) [Demo.helper None; Demo.properties] "/repo" tt tt _ _
    Demo.properties _ _ _ _ "new_ui" tt)).
  - intros basepath pattern w. reflexivity.
  - vm_compute. reflexivity.
  - right. left.
  - vm_compute. reflexivity.
Defined.

(** ** Which files the cache build looks at *)

Section TouchedFiles.
Context {World : Type} (os : OS World) (lib : Lib).
Implicit Types (w : World) (l : list Event) (cache : gmap string bytes).

Lemma files_touched_app l1 l2 :
  files_touched (l1 ++ l2) = files_touched l1 ++ files_touched l2.
Proof. apply omap_app. Qed.

Lemma files_touched_bind {A B} (P : string -> Prop) (m : M World A)
    (k : A -> M World B) w :
  Forall P (files_touched (m w).2) ->
  (forall v w1 l1, m w = (Ok v, w1, l1) -> Forall P (files_touched (k v w1).2)) ->
  Forall P (files_touched (bind m k w).2).
Proof.
  intros Hm Hk. unfold bind.
  destruct (m w) as [[[v|e|c] w1] l1] eqn:E; try done.
  specialize (Hk v w1 l1 eq_refl). destruct (k v w1) as [[r w2] l2].
  simpl in *. rewrite files_touched_app. by apply Forall_app.
Qed.

Lemma expandGlobs_paths aliasId dir globs paths w paths' w' l :
  expandGlobs os lib aliasId dir globs paths w = (Ok paths', w', l) ->
  forall p, p ∈ paths' ->
    p ∈ paths
    \/ exists glob w0 w1 matches match_,
         glob ∈ globs /\ doublestar_Glob os dir glob w0 = (Some matches, w1)
         /\ match_ ∈ matches /\ p = strings_Join [dir; match_] "/".
Proof.
  revert paths w l. induction globs as [|g globs IH]; intros paths w l; simpl.
  - intros [= <- _ _]. auto.
  - intros H. apply bind_Ok_inv in H as (ms & w1 & l1 & l2 & Hg & H & _).
    apply or_fail_Ok_inv in Hg. unfold globToAbsolutePaths, bind, Glob in Hg.
    destruct (doublestar_Glob os dir g w) as [[matches|] w2] eqn:Eg; [|done].
    injection Hg as <- _ _. intros p Hp.
    destruct (IH _ _ _ H p Hp) as [[?|Hm]%elem_of_app|Hrest]; [by left|..].
    + right. apply list_elem_of_fmap in Hm as (m & -> & Hm).
      exists g, w, w2, matches, m. repeat split; try done. by left.
    + right. destruct Hrest as (g' & w0 & w3 & ms & m & ? & ? & ? & ?).
      exists g', w0, w3, ms, m. repeat split; try done. by right.
Qed.

Lemma readPaths_touches aliasId paths cache w :
  Forall (fun p => p ∈ paths)
    (files_touched (readPaths os aliasId paths cache w).2).
Proof.
  revert cache w. induction paths as [|path paths IH]; intros cache w; simpl.
  - constructor.
  - apply files_touched_bind.
    + unfold readPath. destruct (cache !! path); [constructor|].
      unfold bind, FileExists, or_fail, ReadFile.
      destruct (validation_FileExists os path w) as [[|] w1]; simpl.
      * destruct (ioutil_ReadFile os path w1) as [[data|e] w2]; simpl;
          repeat constructor.
      * repeat constructor.
    + intros c1 w1 l1 _. eapply Forall_impl; [apply IH|].
      intros p Hp. by right.
Qed.

Lemma matched_path_mono aliases a dir p :
  matched_path os lib aliases dir p -> matched_path os lib (a :: aliases) dir p.
Proof.
  intros (a' & g & w0 & w1 & ms & m & Ha & H). exists a', g, w0, w1, ms, m.
  split; [by right | done].
Qed.

Lemma processRules_touches dir idx aliases cache w :
  Forall (matched_path os lib aliases dir)
    (files_touched (processRules os lib dir idx aliases cache w).2).
Proof.
  revert idx cache w.
  induction aliases as [|a aliases IH]; intros idx cache w; simpl.
  - constructor.
  - assert (forall idx cache w,
      Forall (matched_path os lib (a :: aliases) dir)
        (files_touched (processRules os lib dir idx aliases cache w).2)) as IH'.
    { intros. eapply Forall_impl; [apply IH|]. apply matched_path_mono. }
    destruct (switch_kind lib (Canonical lib (Type_ a))) eqn:Hk; try apply IH'.
    apply files_touched_bind.
    + pose proof (expandGlobs_touches_no_file os lib
                    (if String.eqb (Name a) "" then strconv_Itoa idx else Name a)
                    dir (Paths a) [] w) as [Hc Hr].
      assert (forall l, files_checked l = [] -> files_read l = [] ->
                        files_touched l = []) as Hnone.
      { clear. induction l as [|ev l IHl]; [done|].
        destruct ev; simpl; try done; auto. }
      rewrite Hnone by done. constructor.
    + intros paths w1 l1 He. apply files_touched_bind; [|auto].
      eapply Forall_impl; [apply readPaths_touches|].
      intros p Hp. rewrite elem_of_Dedupe in Hp.
      destruct (expandGlobs_paths _ _ _ _ _ _ _ _ He p Hp)
        as [?%elem_of_nil|(g & w0 & w2 & ms & m & ? & ? & ? & ?)]; [done|].
      exists a, g, w0, w2, ms, m. repeat split; try done. by left.
Qed.

End TouchedFiles.

(** X13.  Every path the cache build checks or reads, however the build
    ends, is the base directory joined by a slash with something that a
    glob of a file-pattern rule of the configuration had matched; so is
    every path that the returned cache holds. *)
Theorem cache_build_looks_only_at_matched_paths
    {World : Type} (os : OS World) (lib : Lib)
    (aliases : list Alias) (dir : string) (w : World) :
  Forall (matched_path os lib aliases dir)
    (files_touched (processFileContent os lib aliases dir w).2)
  /\ forall cache path,
       (processFileContent os lib aliases dir w).1.1 = Ok cache ->
       is_Some (cache !! path) ->
       matched_path os lib aliases dir path.
Proof.
  pose proof (processRules_touches os lib dir 0 aliases ∅ w) as Ht.
  fold (processFileContent os lib aliases dir) in Ht. split; [exact Ht|].
  intros cache path Hok Hsome.
  pose proof (processRules_fresh os lib dir 0 aliases ∅ w) as (_ & _ & _ & H).
  fold (processFileContent os lib aliases dir) in H.
  destruct (H _ Hok) as [_ Hdom]. apply Hdom in Hsome as [[? Hempty]|Hin].
  { by rewrite lookup_empty in Hempty. }
  rewrite Forall_forall in Ht. apply Ht.
  clear -Hin. induction (processFileContent os lib aliases dir w).2
    as [|ev l IH]; [done|].
  destruct ev; simpl in *; auto.
  - apply elem_of_cons in Hin as [->|?]; [by left | right; auto].
  - right. auto.
Qed.

(** X14.  With an empty flag list the call still builds the cache: it asks
    what the cache build asks, fails as the cache build fails, and returns
    the empty mapping when the cache build returns. *)
Theorem GenerateAliases_no_flags_still_builds_the_cache
    {World : Type} (os : OS World) (lib : Lib)
    (aliases : list Alias) (dir : string) (w : World) :
  GenerateAliases os lib [] aliases dir w
  = (match (processFileContent os lib aliases dir w).1.1 with
     | Ok _ => Ok ∅
     | Err e => Err e
     | Panic c => Panic c
     end,
     (processFileContent os lib aliases dir w).1.2,
     (processFileContent os lib aliases dir w).2).
Proof.
  unfold GenerateAliases, bind.
  destruct (processFileContent os lib aliases dir w) as [[[cache|e|c] w1] l1];
    simpl; try done.
  by rewrite app_nil_r.
Qed.
